(** * ExcaliDash collaboration core: a shallow embedding

    Sources embedded here:
    - the shared-drawing page of the frontend (element version tracker,
      render loop, cursor throttle, canvas-change handler, debounced save);
    - the Socket.IO handlers and the [PUT /shared/:token] route of
      [backend/src/index.ts];
    - of the same file, the disconnect handler, the request rate limiter,
      the drawings list cache, [GET /shared/:token] and the share-link
      routes of a drawing's owner.

    Numbers of the JavaScript code are modelled as [Z], strings as [string],
    JavaScript [Map]s whose order is not observed as [gmap], arrays and
    insertion-ordered maps whose order is observed as lists. *)

From stdpp Require Import base numbers option list strings gmap.

Open Scope Z_scope.

(** ** Elements *)

(** An element as the collaboration code sees it: [id], the optional numeric
    fields [version] and [versionNonce] (read with [?? 0]), the tombstone
    flag, and the remaining fields as one opaque payload. *)
Record Element := mkElement {
  el_id : string;
  el_version : option Z;
  el_versionNonce : option Z;
  el_isDeleted : bool;
  el_payload : string
}.

#[global] Instance Element_eq_dec : EqDecision Element.
Proof. solve_decision. Defined.

(** [element.version ?? 0] *)
Definition ver (e : Element) : Z := default 0 (el_version e).

(** [element.versionNonce ?? 0] *)
Definition nonce (e : Element) : Z := default 0 (el_versionNonce e).

(** The ids of a sequence of elements, in order. *)
Definition ids (l : list Element) : list string := el_id <$> l.

(** ** Insertion-ordered maps keyed by element id

    A JavaScript [Map<string, element>] whose [values()] are read back in
    insertion order: [Map.set] on a present key replaces the value where it
    stands, on an absent key it appends. *)
Module OrderedMap.

(** [get]: the entry stored under [k]. *)
Fixpoint get (k : string) (entries : list Element) : option Element :=
  match entries with
  | [] => None
  | e :: rest => if decide (el_id e = k) then Some e else get k rest
  end.

(** [upsert f x entries]: when an entry [e] is stored under the id of [x] it
    becomes [f e], in place; otherwise [x] is appended. *)
Fixpoint upsert (f : Element → Element) (x : Element) (entries : list Element)
  : list Element :=
  match entries with
  | [] => [x]
  | e :: rest =>
      if decide (el_id e = el_id x) then f e :: rest else e :: upsert f x rest
  end.

(** [map.set(x.id, x)] *)
Definition set (x : Element) (entries : list Element) : list Element :=
  upsert (λ _, x) x entries.

End OrderedMap.

(** ** Element version tracker *)

Module Tracker.

Record ElementVersionInfo := mkInfo {
  version : Z;
  versionNonce : Z
}.

#[global] Instance ElementVersionInfo_eq_dec : EqDecision ElementVersionInfo.
Proof. solve_decision. Defined.

Definition info_of (element : Element) : ElementVersionInfo :=
  {| version := ver element; versionNonce := nonce element |}.

(** [recordElementVersion]: an unconditional [Map.set] on
    [elementVersionMap.current]. *)
Definition recordElementVersion (element : Element)
    (m : gmap string ElementVersionInfo) : gmap string ElementVersionInfo :=
  <[el_id element := info_of element]> m.

(** [hasElementChanged]: the boolean result and the tracker after the call. *)
Definition hasElementChanged (element : Element)
    (m : gmap string ElementVersionInfo) : bool * gmap string ElementVersionInfo :=
  match m !! el_id element with
  | None => (true, recordElementVersion element m)
  | Some previous =>
      (negb (version previous =? ver element)
       || negb (versionNonce previous =? nonce element), m)
  end.

End Tracker.

(** ** Reconciliation engine *)

Module Sync.

(** Modelled from the spec: [reconcileElements] of [utils/sync], which the
    shared-drawing page imports and calls in its render loop, is not among
    the sources. The definitions of this module follow section 4.3 of the
    specification: a lookup of the local elements by id that keeps the local
    order as the base sequence; then, for each remote element, append when
    the id is absent, replace in place when the remote version is greater or
    when the versions are equal and the nonces differ, and keep the local
    element otherwise. Missing version fields read as [0]. Tombstones are
    kept. *)
Definition remoteWins (localEl remoteEl : Element) : bool :=
  (ver localEl <? ver remoteEl)
  || ((ver remoteEl =? ver localEl) && negb (nonce remoteEl =? nonce localEl)).

Definition resolve (localEl remoteEl : Element) : Element :=
  if remoteWins localEl remoteEl then remoteEl else localEl.

(** Step 1: the lookup by id, in local order (one entry per id). *)
Definition indexById (localElements : list Element) : list Element :=
  foldl (λ acc localEl, OrderedMap.set localEl acc) [] localElements.

(** Step 2, for one remote element. *)
Definition mergeRemote (acc : list Element) (remoteEl : Element) : list Element :=
  OrderedMap.upsert (λ localEl, resolve localEl remoteEl) remoteEl acc.

Definition reconcileElements (localElements remoteElements : list Element)
  : list Element :=
  foldl mergeRemote (indexById localElements) remoteElements.

(** The same two steps seen from one id [k]: what a remote element does to
    the entry stored under [k], and to an element already stored there. *)
Definition stepEntry (k : string) (o : option Element) (remoteEl : Element)
  : option Element :=
  if decide (el_id remoteEl = k)
  then Some (match o with Some localEl => resolve localEl remoteEl | None => remoteEl end)
  else o.

Definition stepElement (k : string) (x remoteEl : Element) : Element :=
  if decide (el_id remoteEl = k) then resolve x remoteEl else x.

End Sync.

(** ** The shared-drawing page (client) *)

Module SharedView.

Import Tracker.

(** [getUserIdentity()] *)
Record UserIdentity := mkIdentity {
  me_id : string;
  me_name : string;
  me_initials : string;
  me_color : string
}.

(** The record returned by [GET /shared/:token]; [sd_permission] is the
    string the server sends. *)
Record SharedDrawing := mkSharedDrawing {
  sd_id : string;
  sd_name : string;
  sd_permission : string;
  sd_version : Z
}.

(** An entry of Excalidraw's [collaborators] map. *)
Record Collaborator := mkCollaborator {
  co_pointer : Z * Z;
  co_button : string;
  co_username : string;
  co_color : string;
  co_id : string
}.

(** Excalidraw's app state: the three fields the save keeps, and transient
    UI state next to them. *)
Record AppState := mkAppState {
  viewBackgroundColor : string;
  currentItemFontFamily : Z;
  gridSize : option Z;
  scrollX : Z;
  scrollY : Z;
  selectedElementIds : gmap string bool;
  collaborators : gmap string Collaborator
}.

(** What the page reads and writes through [excalidrawAPI.current]:
    [getSceneElementsIncludingDeleted()] and [getAppState()]. *)
Record Scene := mkScene {
  sceneElements : list Element;
  sceneAppState : AppState
}.

(** The variables a function created during one render keeps seeing. *)
Record Captured := mkCaptured {
  cap_token : option string;
  cap_drawing : option SharedDrawing
}.

(** The component's state and refs. [saveClosure] holds what the function
    stored in the [debouncedSave] ref captured; [pendingSave] is the debounce
    timer: its due time and the arguments of the latest call. *)
Record Client := mkClient {
  token : option string;
  drawing : option SharedDrawing;
  me : UserIdentity;
  socketRef : bool;
  excalidrawAPI : option Scene;
  isSyncing : bool;
  latestElementsRef : list Element;
  elementVersionMap : gmap string ElementVersionInfo;
  cursorBuffer : gmap string Collaborator;
  elementUpdateBuffer : list Element;
  lastCursorEmit : Z;
  saveClosure : Captured;
  pendingSave : option (Z * (list Element * AppState))
}.

Definition set_drawing (v : option SharedDrawing) (st : Client) : Client :=
  mkClient (token st) v (me st) (socketRef st) (excalidrawAPI st) (isSyncing st)
    (latestElementsRef st) (elementVersionMap st) (cursorBuffer st)
    (elementUpdateBuffer st) (lastCursorEmit st) (saveClosure st) (pendingSave st).

Definition set_excalidrawAPI (v : option Scene) (st : Client) : Client :=
  mkClient (token st) (drawing st) (me st) (socketRef st) v (isSyncing st)
    (latestElementsRef st) (elementVersionMap st) (cursorBuffer st)
    (elementUpdateBuffer st) (lastCursorEmit st) (saveClosure st) (pendingSave st).

Definition set_isSyncing (v : bool) (st : Client) : Client :=
  mkClient (token st) (drawing st) (me st) (socketRef st) (excalidrawAPI st) v
    (latestElementsRef st) (elementVersionMap st) (cursorBuffer st)
    (elementUpdateBuffer st) (lastCursorEmit st) (saveClosure st) (pendingSave st).

Definition set_latestElementsRef (v : list Element) (st : Client) : Client :=
  mkClient (token st) (drawing st) (me st) (socketRef st) (excalidrawAPI st)
    (isSyncing st) v (elementVersionMap st) (cursorBuffer st)
    (elementUpdateBuffer st) (lastCursorEmit st) (saveClosure st) (pendingSave st).

Definition set_elementVersionMap (v : gmap string ElementVersionInfo) (st : Client)
  : Client :=
  mkClient (token st) (drawing st) (me st) (socketRef st) (excalidrawAPI st)
    (isSyncing st) (latestElementsRef st) v (cursorBuffer st)
    (elementUpdateBuffer st) (lastCursorEmit st) (saveClosure st) (pendingSave st).

Definition set_cursorBuffer (v : gmap string Collaborator) (st : Client) : Client :=
  mkClient (token st) (drawing st) (me st) (socketRef st) (excalidrawAPI st)
    (isSyncing st) (latestElementsRef st) (elementVersionMap st) v
    (elementUpdateBuffer st) (lastCursorEmit st) (saveClosure st) (pendingSave st).

Definition set_elementUpdateBuffer (v : list Element) (st : Client) : Client :=
  mkClient (token st) (drawing st) (me st) (socketRef st) (excalidrawAPI st)
    (isSyncing st) (latestElementsRef st) (elementVersionMap st) (cursorBuffer st)
    v (lastCursorEmit st) (saveClosure st) (pendingSave st).

Definition set_lastCursorEmit (v : Z) (st : Client) : Client :=
  mkClient (token st) (drawing st) (me st) (socketRef st) (excalidrawAPI st)
    (isSyncing st) (latestElementsRef st) (elementVersionMap st) (cursorBuffer st)
    (elementUpdateBuffer st) v (saveClosure st) (pendingSave st).

Definition set_pendingSave (v : option (Z * (list Element * AppState))) (st : Client)
  : Client :=
  mkClient (token st) (drawing st) (me st) (socketRef st) (excalidrawAPI st)
    (isSyncing st) (latestElementsRef st) (elementVersionMap st) (cursorBuffer st)
    (elementUpdateBuffer st) (lastCursorEmit st) (saveClosure st) v.

(** The first render: [useState(null)] for [drawing], empty refs, and the
    [useRef(debounce(...))] whose argument is evaluated in this render, so
    the function kept in the ref sees this render's [token] and [drawing]. *)
Definition mount (tok : option string) (identity : UserIdentity) : Client :=
  {| token := tok;
     drawing := None;
     me := identity;
     socketRef := false;
     excalidrawAPI := None;
     isSyncing := false;
     latestElementsRef := [];
     elementVersionMap := ∅;
     cursorBuffer := ∅;
     elementUpdateBuffer := [];
     lastCursorEmit := 0;
     saveClosure := {| cap_token := tok; cap_drawing := None |};
     pendingSave := None |}.

(** *** Effects of the handlers *)

(** The pointer payload Excalidraw passes to [onPointerUpdate]. *)
Record PointerPayload := mkPointer {
  pp_pointer : Z * Z;
  pp_button : string
}.

(** [socketRef.current.emit(...)] *)
Inductive ClientEmit :=
| EmitCursorMove (pointer : Z * Z) (button username userId drawingId color : string)
| EmitElementUpdate (drawingId : string) (elements : list Element) (userId : string).

(** The reduced app state the save sends. *)
Record SavedAppState := mkSavedAppState {
  sv_viewBackgroundColor : string;
  sv_currentItemFontFamily : Z;
  sv_gridSize : option Z
}.

(** [api.updateSharedDrawing(token, { elements, appState })] *)
Inductive ApiCall :=
| UpdateSharedDrawing (tok : string) (elements : list Element) (appState : SavedAppState).

(** What [handleCanvasChange] calls: the debounced and the throttled
    function, each with its arguments. *)
Inductive Call :=
| CallDebouncedSave (elements : list Element) (appState : AppState)
| CallBroadcastChanges (elements : list Element).

(** *** Debounced save *)

(** The function given to [debounce]: its guard reads the captured [token]
    and [drawing] ([!token] also holds for the empty string). *)
Definition saveBody (c : Captured) (elements : list Element) (appState : AppState)
  : list ApiCall :=
  match cap_token c, cap_drawing c with
  | Some tok, Some d =>
      if decide (tok = "") then []
      else if decide (sd_permission d = "edit") then
        [UpdateSharedDrawing tok
           (filter (λ e, el_isDeleted e = false) elements)
           {| sv_viewBackgroundColor := viewBackgroundColor appState;
              sv_currentItemFontFamily := currentItemFontFamily appState;
              sv_gridSize := gridSize appState |}]
      else []
  | _, _ => []
  end.

(** [debounce(f, 1500)] of lodash with its default options: a call replaces
    the pending arguments and restarts the 1500 ms wait; [f] runs with the
    latest arguments once the wait has elapsed without a further call. *)
Definition SAVE_WAIT : Z := 1500.

Definition debouncedSave (now : Z) (elements : list Element) (appState : AppState)
    (st : Client) : Client :=
  set_pendingSave (Some (now + SAVE_WAIT, (elements, appState))) st.

(** The timers that are due at [now]. *)
Definition runTimers (now : Z) (st : Client) : Client * list ApiCall :=
  match pendingSave st with
  | Some (due, (elements, appState)) =>
      if due <=? now
      then (set_pendingSave None st, saveBody (saveClosure st) elements appState)
      else (st, [])
  | None => (st, [])
  end.

(** *** Broadcast of local changes *)

(** The loop of the function given to [throttle]: the changed elements, in
    order, and the tracker after [hasElementChanged] and
    [recordElementVersion]. *)
Definition collectChanges (elements : list Element)
    (m : gmap string ElementVersionInfo)
  : list Element * gmap string ElementVersionInfo :=
  foldl (λ acc el,
           let '(b, m1) := hasElementChanged el acc.2 in
           if b then (acc.1 ++ [el], recordElementVersion el m1) else (acc.1, m1))
        ([], m) elements.

Definition broadcastBody (elements : list Element) (st : Client)
  : Client * list ClientEmit :=
  match drawing st with
  | Some d =>
      if socketRef st then
        let '(changes, m) := collectChanges elements (elementVersionMap st) in
        (set_elementVersionMap m st,
         match changes with
         | [] => []
         | _ :: _ => [EmitElementUpdate (sd_id d) changes (me_id (me st))]
         end)
      else (st, [])
  | None => (st, [])
  end.

(** *** Canvas changes *)

Definition handleCanvasChange (elements : list Element) (appState : AppState)
    (st : Client) : Client * list Call :=
  match drawing st with
  | None => (st, [])
  | Some d =>
      if isSyncing st then (st, [])
      else
        let allElements :=
          match excalidrawAPI st with
          | Some scene => sceneElements scene
          | None => elements
          end in
        let st' := set_latestElementsRef allElements st in
        if decide (sd_permission d = "edit")
        then (st', [CallDebouncedSave allElements appState;
                    CallBroadcastChanges allElements])
        else (st', [])
  end.

(** *** Cursor broadcast *)

Definition CURSOR_INTERVAL : Z := 33.

Definition onPointerUpdate (now : Z) (payload : PointerPayload) (st : Client)
  : Client * list ClientEmit :=
  match drawing st with
  | None => (st, [])
  | Some d =>
      if (CURSOR_INTERVAL <? now - lastCursorEmit st) && socketRef st
      then (set_lastCursorEmit now st,
            [EmitCursorMove (pp_pointer payload) (pp_button payload)
               (me_name (me st)) (me_id (me st)) (sd_id d) (me_color (me st))])
      else (st, [])
  end.

(** A run of pointer events, each with the value [Date.now()] returns when
    it is handled: the state afterwards and the times of the emissions. *)
Fixpoint pointerRun (events : list (Z * PointerPayload)) (st : Client)
  : Client * list Z :=
  match events with
  | [] => (st, [])
  | (now, payload) :: rest =>
      let '(st1, out) := onPointerUpdate now payload st in
      let '(st2, times) := pointerRun rest st1 in
      (st2, match out with [] => times | _ :: _ => now :: times end)
  end.

(** *** Render loop *)

(** [!mySelectedIds[id]] is false exactly when the id is mapped to [true]. *)
Definition isSelected (mySelectedIds : gmap string bool) (k : string) : bool :=
  default false (mySelectedIds !! k).

(** One buffered element entering [dedupMap]. *)
Definition dedupStep (dedupMap : list Element) (el : Element) : list Element :=
  OrderedMap.upsert
    (λ existing, if ver existing <? ver el then el else existing) el dedupMap.

(** [Array.from(dedupMap.values()).filter(el => !mySelectedIds[el.id])] *)
Definition remoteBatch (mySelectedIds : gmap string bool) (buffer : list Element)
  : list Element :=
  filter (λ el, isSelected mySelectedIds (el_id el) = false)
         (foldl dedupStep [] buffer).

(** The element part of a tick: the client afterwards and
    [sceneUpdate.elements], when set. *)
Definition drainElements (scene : Scene) (st : Client)
  : Client * option (list Element) :=
  match elementUpdateBuffer st with
  | [] => (st, None)
  | _ :: _ =>
      let st1 := set_isSyncing true st in
      let mySelectedIds := selectedElementIds (sceneAppState scene) in
      let remoteElements := remoteBatch mySelectedIds (elementUpdateBuffer st1) in
      let st2 := set_elementUpdateBuffer [] st1 in
      match remoteElements with
      | [] => (st2, None)
      | _ :: _ =>
          let localElements := sceneElements scene in
          let mergedElements := Sync.reconcileElements localElements remoteElements in
          let st3 :=
            set_elementVersionMap
              (foldl (λ m el, recordElementVersion el m)
                     (elementVersionMap st2) remoteElements) st2 in
          (set_latestElementsRef mergedElements st3, Some mergedElements)
      end
  end.

(** The cursor part of a tick: the client afterwards and
    [sceneUpdate.collaborators], when set. *)
Definition drainCursors (scene : Scene) (st : Client)
  : Client * option (gmap string Collaborator) :=
  if decide (cursorBuffer st = ∅) then (st, None)
  else (set_cursorBuffer ∅ st,
        Some (cursorBuffer st ∪ collaborators (sceneAppState scene))).

(** [excalidrawAPI.current.updateScene(sceneUpdate)]: the fields that are set
    replace the scene's. *)
Definition updateScene (elements : option (list Element))
    (collabs : option (gmap string Collaborator)) (scene : Scene) : Scene :=
  let a := sceneAppState scene in
  {| sceneElements := default (sceneElements scene) elements;
     sceneAppState :=
       mkAppState (viewBackgroundColor a) (currentItemFontFamily a) (gridSize a)
         (scrollX a) (scrollY a) (selectedElementIds a)
         (default (collaborators a) collabs) |}.

Definition renderLoop (st : Client) : Client :=
  match excalidrawAPI st with
  | None => st
  | Some scene =>
      let '(st1, elements) := drainElements scene st in
      let '(st2, collabs) := drainCursors scene st1 in
      set_excalidrawAPI (Some (updateScene elements collabs scene)) st2
  end.

(** One animation frame: the callback that resets [isSyncing] was queued
    before the next [renderLoop], so it runs first. *)
Definition animationFrame (st : Client) : Client :=
  renderLoop (set_isSyncing false st).

(** [socket.on('element-update', ...)]: the elements are pushed on the
    buffer. *)
Definition onElementUpdate (elements : list Element) (st : Client) : Client :=
  set_elementUpdateBuffer (elementUpdateBuffer st ++ elements) st.

(** The local user changes the selection (Excalidraw's own state). *)
Definition select (ids' : gmap string bool) (st : Client) : Client :=
  match excalidrawAPI st with
  | None => st
  | Some scene =>
      let a := sceneAppState scene in
      set_excalidrawAPI
        (Some {| sceneElements := sceneElements scene;
                 sceneAppState :=
                   mkAppState (viewBackgroundColor a) (currentItemFontFamily a)
                     (gridSize a) (scrollX a) (scrollY a) ids' (collaborators a) |})
        st
  end.

(** The elements of the live scene ([[]] before the canvas is ready). *)
Definition liveElements (st : Client) : list Element :=
  match excalidrawAPI st with
  | Some scene => sceneElements scene
  | None => []
  end.

(** *** The persistence path of a session *)

Inductive Event :=
| Loaded (d : SharedDrawing)
| SceneIs (scene : Scene)
| CanvasChange (elements : list Element) (appState : AppState)
| Wait.

(** The calls of [handleCanvasChange] that reach the store go through the
    debounce; the broadcast goes to the socket and is not followed here. *)
Definition dispatch (now : Z) (st : Client) (c : Call) : Client :=
  match c with
  | CallDebouncedSave elements appState => debouncedSave now elements appState st
  | CallBroadcastChanges _ => st
  end.

(** One event at time [now]: the due timers run first. [Loaded] is
    [setDrawing(data)]: later renders see the drawing, the function kept in
    the [debouncedSave] ref is the one of the first render. *)
Definition step (now : Z) (ev : Event) (st : Client) : Client * list ApiCall :=
  let '(st1, calls) := runTimers now st in
  match ev with
  | Loaded d => (set_drawing (Some d) st1, calls)
  | SceneIs scene => (set_excalidrawAPI (Some scene) st1, calls)
  | CanvasChange elements appState =>
      let '(st2, cs) := handleCanvasChange elements appState st1 in
      (foldl (dispatch now) st2 cs, calls)
  | Wait => (st1, calls)
  end.

Fixpoint run (events : list (Z * Event)) (st : Client) : Client * list ApiCall :=
  match events with
  | [] => (st, [])
  | (now, ev) :: rest =>
      let '(st1, calls1) := step now ev st in
      let '(st2, calls2) := run rest st1 in
      (st2, calls1 ++ calls2)
  end.

(** The same session with a save function that sees the loaded drawing, as
    the [useCallback] of [broadcastChanges] does through its dependency
    list. Used only to compare. *)
Definition withSaveClosure (c : Captured) (st : Client) : Client :=
  mkClient (token st) (drawing st) (me st) (socketRef st) (excalidrawAPI st)
    (isSyncing st) (latestElementsRef st) (elementVersionMap st) (cursorBuffer st)
    (elementUpdateBuffer st) (lastCursorEmit st) c (pendingSave st).

(** One local edit at time [e.1]: Excalidraw's scene becomes [e.2.1] and its
    [onChange] calls the handler with the elements [e.2.2] and the scene's
    app state. *)
Definition localEdit (e : Z * (Scene * list Element)) : list (Z * Event) :=
  [(e.1, SceneIs e.2.1); (e.1, CanvasChange e.2.2 (sceneAppState e.2.1))].

Definition burstEvents (edits : list (Z * (Scene * list Element)))
  : list (Z * Event) :=
  edits ≫= localEdit.


(** Emission times that are each more than [CURSOR_INTERVAL] after the one
    before, the first one after [last]. *)
Fixpoint gapped (last : Z) (times : list Z) : Prop :=
  match times with
  | [] => True
  | t :: rest => last + CURSOR_INTERVAL < t ∧ gapped t rest
  end.

End SharedView.

(** ** The room registry and relay (server) *)

Module Server.

Record SocketUser := mkSocketUser {
  id : string;
  name : string;
  initials : string;
  color : string;
  socketId : string;
  isActive : bool
}.

#[global] Instance SocketUser_eq_dec : EqDecision SocketUser.
Proof. solve_decision. Defined.

(** [Omit<SocketUser, "socketId" | "isActive">], the [user] of [join-room]. *)
Record JoinUser := mkJoinUser {
  ju_id : string;
  ju_name : string;
  ju_initials : string;
  ju_color : string
}.

(** The [data] of [cursor-move] and [element-update]: the server reads
    [drawingId] only; the rest is carried as it came. *)
Record RelayData := mkRelayData {
  drawingId : string;
  body : string
}.

(** [roomUsers], and the rooms of the Socket.IO adapter (room name to the
    ids of the sockets that joined it). *)
Record State := mkState {
  roomUsers : gmap string (list SocketUser);
  rooms : gmap string (gset string)
}.

(** [io.to(room)] addresses every socket of the room, [socket.to(room)]
    every socket of the room but the sender. *)
Inductive Target :=
| ToRoom (room : string)
| ToRoomExcept (room : string) (sender : string).

Inductive Payload :=
| Roster (users : list SocketUser)
| Relayed (data : RelayData).

Record Emit := mkEmit {
  target : Target;
  volatile : bool;
  event : string;
  payload : Payload
}.

Definition members (st : State) (room : string) : gset string :=
  default ∅ (rooms st !! room).

(** The sockets an emission is addressed to. *)
Definition recipients (st : State) (e : Emit) : gset string :=
  match target e with
  | ToRoom room => members st room
  | ToRoomExcept room sender => members st room ∖ {[sender]}
  end.

(** [`drawing_${drawingId}`] *)
Definition roomIdOf (d : string) : string := "drawing_" +:+ d.

(** [socket.join(roomId)] *)
Definition socketJoin (socket room : string) (st : State) : State :=
  {| roomUsers := roomUsers st;
     rooms := <[room := {[socket]} ∪ members st room]> (rooms st) |}.

(** [{ ...user, socketId: socket.id, isActive: true }] *)
Definition newUserOf (socket : string) (user : JoinUser) : SocketUser :=
  {| id := ju_id user; name := ju_name user; initials := ju_initials user;
     color := ju_color user; socketId := socket; isActive := true |}.

(** The [join-room] handler of the socket with id [socket]. *)
Definition joinRoom (socket : string) (d : string) (user : JoinUser) (st : State)
  : State * list Emit :=
  let roomId := roomIdOf d in
  let st1 := socketJoin socket roomId st in
  let newUser := newUserOf socket user in
  let currentUsers := default [] (roomUsers st1 !! roomId) in
  let filteredUsers :=
    filter (λ u, id u ≠ ju_id user) currentUsers ++ [newUser] in
  ({| roomUsers := <[roomId := filteredUsers]> (roomUsers st1);
      rooms := rooms st1 |},
   [mkEmit (ToRoom roomId) false "presence-update" (Roster filteredUsers)]).

(** The [cursor-move] handler: [socket.volatile.to(roomId).emit]. *)
Definition cursorMove (socket : string) (data : RelayData) (st : State)
  : State * list Emit :=
  (st, [mkEmit (ToRoomExcept (roomIdOf (drawingId data)) socket) true
          "cursor-move" (Relayed data)]).

(** The [element-update] handler: [socket.to(roomId).emit]. *)
Definition elementUpdate (socket : string) (data : RelayData) (st : State)
  : State * list Emit :=
  (st, [mkEmit (ToRoomExcept (roomIdOf (drawingId data)) socket) false
          "element-update" (Relayed data)]).

(** What a pure relay of [data] under the event [name] looks like: the state
    is the one before, and one emission carries [data] to the sockets of the
    drawing's room other than the sender. *)
Definition relayed (name socket : string) (data : RelayData) (st : State)
    (result : State * list Emit) : Prop :=
  result.1 = st
  ∧ ∃ e, result.2 = [e]
      ∧ event e = name ∧ payload e = Relayed data
      ∧ recipients st e = members st (roomIdOf (drawingId data)) ∖ {[socket]}
      ∧ socket ∉ recipients st e.

Definition setActive (a : bool) (u : SocketUser) : SocketUser :=
  mkSocketUser (id u) (name u) (initials u) (color u) (socketId u) a.

(** The [user-activity] handler: [users.find] gives the first participant
    with the sender's socket id; its flag is assigned in the array the
    registry holds. *)
Definition userActivity (socket : string) (d : string) (a : bool) (st : State)
  : State * list Emit :=
  let roomId := roomIdOf d in
  match roomUsers st !! roomId with
  | Some users =>
      match list_find (λ u, socketId u = socket) users with
      | Some (i, user) =>
          let users' := <[i := setActive a user]> users in
          ({| roomUsers := <[roomId := users']> (roomUsers st);
              rooms := rooms st |},
           [mkEmit (ToRoom roomId) false "presence-update" (Roster users')])
      | None => (st, [])
      end
  | None => (st, [])
  end.

End Server.

(** ** [PUT /shared/:token] *)

Module SharedRoute.

(** A row of [ShareLink]. [link_expiresAt] is a time in milliseconds. *)
Record ShareLink := mkShareLink {
  link_permission : string;
  link_isActive : bool;
  link_expiresAt : option Z;
  link_drawingId : string
}.

(** A row of [Drawing]: the JSON columns hold text. *)
Record DrawingRow := mkDrawingRow {
  row_name : string;
  row_elements : string;
  row_appState : string;
  row_files : string;
  row_version : Z
}.

(** The tables the route touches: share links by their unique token,
    drawings by id. *)
Record Db := mkDb {
  shareLinks : gmap string ShareLink;
  drawings : gmap string DrawingRow
}.

(** The request body after [JSON.stringify] of each field that is present. *)
Record UpdateBody := mkUpdateBody {
  req_elements : option string;
  req_appState : option string;
  req_files : option string
}.

Inductive ResponseBody :=
| ErrorBody (error : string)
| DrawingBody (drawingId : string) (row : DrawingRow) (permission : string).

Record Response := mkResponse {
  status : Z;
  json : ResponseBody
}.

(** [prisma.drawing.update] with [version: { increment: 1 }] and the fields
    that are present. *)
Definition applyUpdate (b : UpdateBody) (row : DrawingRow) : DrawingRow :=
  {| row_name := row_name row;
     row_elements := default (row_elements row) (req_elements b);
     row_appState := default (row_appState row) (req_appState b);
     row_files := default (row_files row) (req_files b);
     row_version := row_version row + 1 |}.

(** The handler: the response and the database afterwards. A missing
    drawing row makes the update throw, which the [catch] turns into 500. *)
Definition putShared (now : Z) (tok : string) (b : UpdateBody) (db : Db)
  : Response * Db :=
  match shareLinks db !! tok with
  | None => (mkResponse 404 (ErrorBody "Shared link not found"), db)
  | Some link =>
      if negb (link_isActive link)
      then (mkResponse 403 (ErrorBody "This share link has been deactivated"), db)
      else if match link_expiresAt link with
              | Some t => t <? now
              | None => false
              end
      then (mkResponse 403 (ErrorBody "This share link has expired"), db)
      else if decide (link_permission link ≠ "edit")
      then (mkResponse 403 (ErrorBody "This share link is view-only"), db)
      else
        match drawings db !! link_drawingId link with
        | None => (mkResponse 500 (ErrorBody "Failed to update shared drawing"), db)
        | Some row =>
            let updated := applyUpdate b row in
            (mkResponse 200
               (DrawingBody (link_drawingId link) updated (link_permission link)),
             {| shareLinks := shareLinks db;
                drawings := <[link_drawingId link := updated]> (drawings db) |})
        end
  end.

End SharedRoute.

(** ** The registry over a connection's lifetime (server) *)

Module Registry.

Import Server.

(** [users.splice(index, 1)] at [users.findIndex(u => u.socketId === socket.id)]:
    the first participant of the socket leaves the array; an array without
    one stays as it is. *)
Definition dropSocket (socket : string) (users : list SocketUser) : list SocketUser :=
  match list_find (λ u, socketId u = socket) users with
  | Some (i, _) => delete i users
  | None => users
  end.

(** The announcement of one room, when the socket had a participant there. *)
Definition farewell (socket : string) (entry : string * list SocketUser) : option Emit :=
  match list_find (λ u, socketId u = socket) entry.2 with
  | Some _ =>
      Some (mkEmit (ToRoom entry.1) false "presence-update"
              (Roster (dropSocket socket entry.2)))
  | None => None
  end.

(** The [disconnect] handler. Socket.IO has taken the socket out of its rooms
    when the event fires. The rooms of [roomUsers] are visited in the map's
    order, which [map_to_list] does not reproduce: the emissions are to be
    read as a set. *)
Definition disconnect (socket : string) (st : State) : State * list Emit :=
  ({| roomUsers := dropSocket socket <$> roomUsers st;
      rooms := (λ s : gset string, s ∖ {[socket]}) <$> rooms st |},
   omap (farewell socket) (map_to_list (roomUsers st))).

(** What a socket can send. *)
Inductive Message :=
| JoinRoom (d : string) (user : JoinUser)
| CursorMove (data : RelayData)
| ElementUpdate (data : RelayData)
| UserActivity (d : string) (a : bool)
| Disconnect.

Definition handle (socket : string) (m : Message) (st : State) : State * list Emit :=
  match m with
  | JoinRoom d user => joinRoom socket d user st
  | CursorMove data => cursorMove socket data st
  | ElementUpdate data => elementUpdate socket data st
  | UserActivity d a => userActivity socket d a st
  | Disconnect => disconnect socket st
  end.

(** The handlers run one at a time, in the order the messages arrive. *)
Fixpoint serve (msgs : list (string * Message)) (st : State) : State * list Emit :=
  match msgs with
  | [] => (st, [])
  | (socket, m) :: rest =>
      let '(st1, out1) := handle socket m st in
      let '(st2, out2) := serve rest st1 in
      (st2, out1 ++ out2)
  end.

(** [new Map()] at process start. *)
Definition start : State := {| roomUsers := ∅; rooms := ∅ |}.

(** No roster lists a user id twice. *)
Definition distinctUsers (st : State) : Prop :=
  map_Forall (λ _ users, NoDup (id <$> users)) (roomUsers st).

(** How many participants of a roster carry the socket's id. *)
Definition entriesOf (socket : string) (users : list SocketUser) : nat :=
  length (filter (λ u, socketId u = socket) users).

End Registry.

(** ** The request rate limiter (server) *)

Module RateLimit.

(** An entry of [requestCounts]. *)
Record ClientData := mkClientData {
  count : Z;
  resetTime : Z
}.

(** [15 * 60 * 1000] *)
Definition RATE_LIMIT_WINDOW : Z := 15 * 60 * 1000.

Inductive Verdict :=
| Next
| TooManyRequests.

#[global] Instance Verdict_eq_dec : EqDecision Verdict.
Proof. solve_decision. Defined.

(** [req.path.startsWith("/api/auth")] *)
Definition isAuthPath (path : string) : bool := String.prefix "/api/auth" path.

(** The middleware, for a request handled at [now]. [maxRequests] is
    [RATE_LIMIT_MAX_REQUESTS], read from the environment at start (a positive
    number, 1000 by default). *)
Definition rateLimit (maxRequests now : Z) (path ip : string)
    (requestCounts : gmap string ClientData) : Verdict * gmap string ClientData :=
  if isAuthPath path then (Next, requestCounts)
  else
    match requestCounts !! ip with
    | Some clientData =>
        if resetTime clientData <? now
        then (Next, <[ip := mkClientData 1 (now + RATE_LIMIT_WINDOW)]> requestCounts)
        else if maxRequests <=? count clientData
        then (TooManyRequests, requestCounts)
        else (Next,
              <[ip := mkClientData (count clientData + 1) (resetTime clientData)]>
                requestCounts)
    | None =>
        (Next, <[ip := mkClientData 1 (now + RATE_LIMIT_WINDOW)]> requestCounts)
    end.

(** The [setInterval] sweep: entries whose window is over are deleted. *)
Definition sweep (now : Z) (requestCounts : gmap string ClientData)
  : gmap string ClientData :=
  filter (λ entry, ¬ resetTime entry.2 < now) requestCounts.

Inductive Event :=
| Request (path ip : string)
| Sweep.

(** A run of the middleware and the sweep, each event with the time it is
    handled at: the table afterwards and, per request, its path, its ip and
    the verdict. *)
Fixpoint serve (maxRequests : Z) (events : list (Z * Event))
    (requestCounts : gmap string ClientData)
  : gmap string ClientData * list (string * string * Verdict) :=
  match events with
  | [] => (requestCounts, [])
  | (now, Request path ip) :: rest =>
      let '(v, counts1) := rateLimit maxRequests now path ip requestCounts in
      let '(counts2, log) := serve maxRequests rest counts1 in
      (counts2, (path, ip, v) :: log)
  | (now, Sweep) :: rest => serve maxRequests rest (sweep now requestCounts)
  end.

(** The requests of [ip] outside the auth routes that were let through. *)
Definition passed (ip : string) (log : list (string * string * Verdict)) : nat :=
  length (filter (λ x, x.1.2 = ip ∧ isAuthPath x.1.1 = false ∧ x.2 = Next) log).

End RateLimit.

(** ** The drawings list cache (server) *)

Module DrawingsCache.

(** [DrawingsCacheEntry]; the body is the serialized response. *)
Record Entry := mkEntry {
  body : string;
  expiresAt : Z
}.

(** [getCachedDrawingsBody], called at [now]: the body or [null], and the
    cache afterwards (an expired entry is deleted). *)
Definition getCachedDrawingsBody (now : Z) (key : string)
    (drawingsCache : gmap string Entry) : option string * gmap string Entry :=
  match drawingsCache !! key with
  | None => (None, drawingsCache)
  | Some entry =>
      if expiresAt entry <? now then (None, delete key drawingsCache)
      else (Some (body entry), drawingsCache)
  end.

(** [cacheDrawingsResponse], called at [now] with the serialized payload;
    [ttl] is [DRAWINGS_CACHE_TTL_MS]. *)
Definition cacheDrawingsResponse (ttl now : Z) (key payload : string)
    (drawingsCache : gmap string Entry) : gmap string Entry :=
  <[key := mkEntry payload (now + ttl)]> drawingsCache.

(** [invalidateDrawingsCache] *)
Definition invalidateDrawingsCache (drawingsCache : gmap string Entry)
  : gmap string Entry := ∅.

(** The [setInterval] sweep. *)
Definition sweep (now : Z) (drawingsCache : gmap string Entry) : gmap string Entry :=
  filter (λ kv, ¬ expiresAt kv.2 < now) drawingsCache.

Inductive Op :=
| Get (key : string)
| Put (key payload : string)
| Invalidate
| Sweep.

(** A run of cache operations, each with the time it happens at: the cache
    afterwards and the results of the [Get]s, in order. *)
Fixpoint run (ttl : Z) (ops : list (Z * Op)) (drawingsCache : gmap string Entry)
  : gmap string Entry * list (option string) :=
  match ops with
  | [] => (drawingsCache, [])
  | (now, Get key) :: rest =>
      let '(r, c1) := getCachedDrawingsBody now key drawingsCache in
      let '(c2, rs) := run ttl rest c1 in
      (c2, r :: rs)
  | (now, Put key payload) :: rest =>
      run ttl rest (cacheDrawingsResponse ttl now key payload drawingsCache)
  | (now, Invalidate) :: rest => run ttl rest (invalidateDrawingsCache drawingsCache)
  | (now, Sweep) :: rest => run ttl rest (sweep now drawingsCache)
  end.

(** A cache that never deletes an entry on its own: it keeps, per key, the
    time and payload of the latest [Put] since the last [Invalidate], and a
    [Get] checks the entry's age. Written to compare [run] with. *)
Definition referenceGet (ttl now : Z) (key : string) (puts : gmap string (Z * string))
  : option string :=
  match puts !! key with
  | Some (t, payload) => if t + ttl <? now then None else Some payload
  | None => None
  end.

Fixpoint reference (ttl : Z) (ops : list (Z * Op)) (puts : gmap string (Z * string))
  : list (option string) :=
  match ops with
  | [] => []
  | (now, Get key) :: rest => referenceGet ttl now key puts :: reference ttl rest puts
  | (now, Put key payload) :: rest => reference ttl rest (<[key := (now, payload)]> puts)
  | (_, Invalidate) :: rest => reference ttl rest ∅
  | (_, Sweep) :: rest => reference ttl rest puts
  end.

(** The cache agrees with the reference at time [from]: an entry it holds is
    the reference's, and a key it lacks is unknown to the reference or too
    old there. *)
Definition agrees (ttl from : Z) (c : gmap string Entry)
    (puts : gmap string (Z * string)) : Prop :=
  ∀ key,
    match c !! key with
    | Some e => puts !! key = Some (expiresAt e - ttl, body e)
    | None =>
        puts !! key = None ∨ ∃ t payload, puts !! key = Some (t, payload) ∧ t + ttl < from
    end.

(** Times that do not go back, none before [from]. *)
Fixpoint clockFrom (from : Z) (ops : list (Z * Op)) : Prop :=
  match ops with
  | [] => True
  | (now, _) :: rest => from ≤ now ∧ clockFrom now rest
  end.

End DrawingsCache.

(** ** [GET /shared/:token] *)

Module SharedAccess.

Import SharedRoute.

(** [link.expiresAt && new Date() > link.expiresAt] *)
Definition expired (now : Z) (link : ShareLink) : bool :=
  match link_expiresAt link with
  | Some t => t <? now
  | None => false
  end.

(** The handler. It writes nothing. The link is read with its drawing
    ([include: { drawing: true }]); a link whose drawing row is missing makes
    the handler throw, which the [catch] turns into 500. As in [putShared],
    the JSON columns are carried as text. *)
Definition getShared (now : Z) (tok : string) (db : Db) : Response :=
  match shareLinks db !! tok with
  | None => mkResponse 404 (ErrorBody "Shared link not found")
  | Some link =>
      if negb (link_isActive link)
      then mkResponse 403 (ErrorBody "This share link has been deactivated")
      else if expired now link
      then mkResponse 403 (ErrorBody "This share link has expired")
      else
        match drawings db !! link_drawingId link with
        | None => mkResponse 500 (ErrorBody "Failed to access shared drawing")
        | Some row =>
            mkResponse 200
              (DrawingBody (link_drawingId link) row (link_permission link))
        end
  end.

(** A link that opens its drawing at [now]: it exists, is active, has not
    expired, and its drawing is there. *)
Definition opens (now : Z) (tok : string) (db : Db) (link : ShareLink)
    (row : DrawingRow) : Prop :=
  shareLinks db !! tok = Some link
  ∧ link_isActive link = true
  ∧ expired now link = false
  ∧ drawings db !! link_drawingId link = Some row.

End SharedAccess.

(** ** More of the shared-drawing page (client) *)

Module SharedViewEvents.

Import Tracker SharedView.

(** The load effect when [getSharedDrawing] resolves: [setDrawing(data)],
    the version of every loaded element is recorded, and the elements become
    [latestElementsRef.current]. [elements] is [data.elements || []]. *)
Definition onLoaded (data : SharedDrawing) (elements : list Element) (st : Client)
  : Client :=
  set_latestElementsRef elements
    (set_elementVersionMap
       (foldl (λ m el, recordElementVersion el m) (elementVersionMap st) elements)
       (set_drawing (Some data) st)).

(** [socketRef.current = socket] in the socket effect. *)
Definition onSocketCreated (st : Client) : Client :=
  mkClient (token st) (drawing st) (me st) true (excalidrawAPI st) (isSyncing st)
    (latestElementsRef st) (elementVersionMap st) (cursorBuffer st)
    (elementUpdateBuffer st) (lastCursorEmit st) (saveClosure st) (pendingSave st).

(** One user of a [presence-update] against the collaborators map: the
    cursor of an inactive user other than the local one is deleted. *)
Definition dropInactive (meId : string) (collabs : gmap string Collaborator)
    (user : Server.SocketUser) : gmap string Collaborator :=
  if negb (Server.isActive user) && bool_decide (Server.id user ≠ meId)
  then delete (Server.id user) collabs
  else collabs.

(** The [presence-update] handler: the new value of the [peers] state and
    the client afterwards. The scene is updated only when the canvas is
    ready. *)
Definition onPresenceUpdate (users : list Server.SocketUser) (st : Client)
  : list Server.SocketUser * Client :=
  (filter (λ u, Server.id u ≠ me_id (me st)) users,
   match excalidrawAPI st with
   | Some scene =>
       set_excalidrawAPI
         (Some (updateScene None
                  (Some (foldl (dropInactive (me_id (me st)))
                           (collaborators (sceneAppState scene)) users))
                  scene))
         st
   | None => st
   end).

(** The collaborators of the live scene (none before the canvas is ready). *)
Definition liveCollaborators (st : Client) : gmap string Collaborator :=
  match excalidrawAPI st with
  | Some scene => collaborators (sceneAppState scene)
  | None => ∅
  end.

(** The elements of an emission ([[]] for a cursor move). *)
Definition emittedElements (e : ClientEmit) : list Element :=
  match e with
  | EmitElementUpdate _ elements _ => elements
  | EmitCursorMove _ _ _ _ _ _ => []
  end.

(** The stored pair of an element's id differs from the element's, or there
    is none. *)
Definition stale (m : gmap string ElementVersionInfo) (el : Element) : Prop :=
  m !! el_id el ≠ Some (info_of el).

#[global] Instance stale_dec m el : Decision (stale m el).
Proof. unfold stale. apply _. Defined.

End SharedViewEvents.

(** ** Share links: the owner's routes (server) *)

Module ShareLinks.

Import SharedRoute.

(** What the handlers look at in a JSON value of [req.body]: whether it is
    truthy ([if (expiresIn)], [Boolean(isActive)]), the string it is when it
    is one ([["view", "edit"].includes(permission)]), and
    [parseInt(value, 10)], [None] standing for [NaN]. *)
Record Observed := mkObserved {
  truthy : bool;
  asString : option string;
  parseInt10 : option Z
}.

(** A field of the body: absent, [null], or another value. *)
Inductive Field :=
| Undefined
| Null
| Value (v : Observed).

(** A row of [ShareLink] beside its primary key: the unique token, the
    creator, and the columns the public routes read. The timestamps
    [createdAt] and [updatedAt] are left out. *)
Record LinkRow := mkLinkRow {
  lr_token : string;
  lr_createdBy : string;
  lr_link : ShareLink
}.

(** A row of [Drawing] with its nullable [userId]. *)
Record OwnedDrawing := mkOwnedDrawing {
  od_userId : option string;
  od_row : DrawingRow
}.

(** The two tables, each by primary key. *)
Record Store := mkStore {
  links : gmap string LinkRow;
  owned : gmap string OwnedDrawing
}.

Definition tokens (s : Store) : list string :=
  (λ e, lr_token e.2) <$> map_to_list (links s).

(** The unique index on [ShareLink.token]. *)
Definition uniqueTokens (s : Store) : Prop := NoDup (tokens s).

(** What the public routes see of the store: the links by token, the
    drawings by id. *)
Definition publicDb (s : Store) : Db :=
  {| shareLinks :=
       list_to_map ((λ e, (lr_token e.2, lr_link e.2)) <$> map_to_list (links s));
     drawings := od_row <$> owned s |}.

Inductive Reply :=
| Failure (status : Z) (error : string)
| LinkJson (id token permission : string) (expiresAt : option Z) (isActive : bool)
| Success.

Definition linkJson (id : string) (r : LinkRow) : Reply :=
  LinkJson id (lr_token r) (link_permission (lr_link r))
    (link_expiresAt (lr_link r)) (link_isActive (lr_link r)).

Definition HOUR : Z := 60 * 60 * 1000.

(** The largest time value of a [Date]; beyond it [new Date(...)] is an
    invalid date, which Prisma refuses, so that the handler's [catch]
    answers 500. *)
Definition MAX_DATE : Z := 8640000000000000.

(** [["view", "edit"].includes(permission)] *)
Definition validPermission (f : Field) : option string :=
  match f with
  | Value v =>
      match asString v with
      | Some p => if decide (p = "view" ∨ p = "edit") then Some p else None
      | None => None
      end
  | _ => None
  end.

Inductive Expiry :=
| BadHours
| BadDate
| ExpiresAt (t : Z).

(** [parseInt(expiresIn, 10)], the check [isNaN(hours) || hours <= 0], and
    [new Date(Date.now() + hours * 60 * 60 * 1000)]. *)
Definition expiryAfter (now : Z) (v : Observed) : Expiry :=
  match parseInt10 v with
  | Some hours =>
      if hours <=? 0 then BadHours
      else if Z.abs (now + hours * HOUR) <=? MAX_DATE
           then ExpiresAt (now + hours * HOUR)
           else BadDate
  | None => BadHours
  end.

Definition NOT_VIEW_OR_EDIT : string := "Permission must be 'view' or 'edit'".
Definition NOT_POSITIVE_HOURS : string := "expiresIn must be a positive number of hours".

(** [findFirst({ where: { id, userId } })] *)
Definition ownedBy (userId id : string) (s : Store) : bool :=
  match owned s !! id with
  | Some d => bool_decide (od_userId d = Some userId)
  | None => false
  end.

(** [prisma.shareLink.create]: the database gives the row its id and its
    token; an id or a token already in the table violates a unique
    constraint, the call throws and the handler's [catch] answers 500. *)
Definition create (newId : string) (r : LinkRow) (s : Store) : option Store :=
  if decide (is_Some (links s !! newId) ∨ lr_token r ∈ tokens s)
  then None
  else Some {| links := <[newId := r]> (links s); owned := owned s |}.

(** [POST /drawings/:id/share], for the authenticated [userId]. *)
Definition createShareLink (now : Z) (newId newToken userId id : string)
    (permission expiresIn : Field) (s : Store) : Reply * Store :=
  match match permission with
        | Undefined => Some "view"
        | _ => validPermission permission
        end with
  | None => (Failure 400 NOT_VIEW_OR_EDIT, s)
  | Some p =>
      if negb (ownedBy userId id s)
      then (Failure 404 "Drawing not found", s)
      else
        let store (expiresAt : option Z) :=
          let r := mkLinkRow newToken userId (mkShareLink p true expiresAt id) in
          match create newId r s with
          | Some s' => (linkJson newId r, s')
          | None => (Failure 500 "Failed to create share link", s)
          end in
        match expiresIn with
        | Value v =>
            if truthy v
            then match expiryAfter now v with
                 | BadHours => (Failure 400 NOT_POSITIVE_HOURS, s)
                 | BadDate => (Failure 500 "Failed to create share link", s)
                 | ExpiresAt t => store (Some t)
                 end
            else store None
        | _ => store None
        end
  end.

(** [PUT /share-links/:linkId], for the authenticated [userId]. The fields
    of [data] that are not set keep the row's values. *)
Definition updateShareLink (now : Z) (userId linkId : string)
    (permission isActive expiresIn : Field) (s : Store) : Reply * Store :=
  match links s !! linkId with
  | None => (Failure 404 "Share link not found", s)
  | Some r =>
      if decide (lr_createdBy r ≠ userId)
      then (Failure 404 "Share link not found", s)
      else
        let l := lr_link r in
        match match permission with
              | Undefined => Some (link_permission l)
              | _ => validPermission permission
              end with
        | None => (Failure 400 NOT_VIEW_OR_EDIT, s)
        | Some p =>
            let active :=
              match isActive with
              | Undefined => link_isActive l
              | Null => false
              | Value v => truthy v
              end in
            let update (expiresAt : option Z) :=
              let r' := mkLinkRow (lr_token r) (lr_createdBy r)
                          (mkShareLink p active expiresAt (link_drawingId l)) in
              (linkJson linkId r',
               {| links := <[linkId := r']> (links s); owned := owned s |}) in
            match expiresIn with
            | Undefined => update (link_expiresAt l)
            | Null => update None
            | Value v =>
                match expiryAfter now v with
                | BadHours => (Failure 400 NOT_POSITIVE_HOURS, s)
                | BadDate => (Failure 500 "Failed to update share link", s)
                | ExpiresAt t => update (Some t)
                end
            end
        end
  end.

(** [DELETE /share-links/:linkId], for the authenticated [userId]. *)
Definition deleteShareLink (userId linkId : string) (s : Store) : Reply * Store :=
  match links s !! linkId with
  | None => (Failure 404 "Share link not found", s)
  | Some r =>
      if decide (lr_createdBy r ≠ userId)
      then (Failure 404 "Share link not found", s)
      else (Success, {| links := delete linkId (links s); owned := owned s |})
  end.

(** A request to one of the three routes that write, with what the database
    generates for a new row. *)
Inductive Request :=
| Post (newId newToken id : string) (permission expiresIn : Field)
| Put (linkId : string) (permission isActive expiresIn : Field)
| Delete (linkId : string).

Definition handle (now : Z) (userId : string) (q : Request) (s : Store)
  : Reply * Store :=
  match q with
  | Post newId newToken id permission expiresIn =>
      createShareLink now newId newToken userId id permission expiresIn s
  | Put linkId permission isActive expiresIn =>
      updateShareLink now userId linkId permission isActive expiresIn s
  | Delete linkId => deleteShareLink userId linkId s
  end.

(** Requests served one after the other, each at its time and for its
    user. *)
Definition serve (trace : list (Z * string * Request)) (s : Store) : Store :=
  foldl (λ s e, (handle e.1.1 e.1.2 e.2 s).2) s trace.

(** The field is there and [Boolean] of it is [false]. *)
Definition falsy (f : Field) : bool :=
  match f with
  | Undefined => false
  | Null => true
  | Value v => negb (truthy v)
  end.


(** The permission is one of the two the routes accept. *)
Definition viewOrEdit (r : LinkRow) : Prop :=
  link_permission (lr_link r) = "view" ∨ link_permission (lr_link r) = "edit".

(** The table as the schema and the routes keep it: tokens are unique, every
    link belongs to a drawing that is there (the foreign key), and its
    permission is one of the two. *)
Definition wellFormed (s : Store) : Prop :=
  uniqueTokens s
  ∧ map_Forall (λ _ r, is_Some (owned s !! link_drawingId (lr_link r))
                       ∧ viewOrEdit r) (links s).

End ShareLinks.

(** ** Worked inputs *)

Module Examples.

Definition el (k : string) (v n : Z) (p : string) : Element :=
  {| el_id := k; el_version := Some v; el_versionNonce := Some n;
     el_isDeleted := false; el_payload := p |}.

(** Local sequence: [a] at version 5 nonce 10, [b] at version 5, [c] at
    version 2, [d] at version 4 nonce 7. *)
Definition localSeq : list Element :=
  [el "a" 5 10 "local a"; el "b" 5 1 "local b"; el "c" 2 1 "local c";
   el "d" 4 7 "local d"].

(** Remote batch: [a] at the same version with nonce 99, a stale [b], a newer
    [c], [d] with the same version and nonce, and a new element [e]. *)
Definition remoteSet : list Element :=
  [el "a" 5 99 "remote a"; el "b" 3 8 "remote b"; el "c" 3 4 "remote c";
   el "d" 4 7 "remote d"; el "e" 1 1 "remote e"].

(** A session on the drawing [D]. *)
Definition ada : SharedView.UserIdentity :=
  SharedView.mkIdentity "u1" "Ada" "A" "#e03131".

Definition editDrawing : SharedView.SharedDrawing :=
  SharedView.mkSharedDrawing "D" "Plan" "edit" 1.

Definition viewDrawing : SharedView.SharedDrawing :=
  SharedView.mkSharedDrawing "D" "Plan" "view" 1.

Definition plainAppState : SharedView.AppState :=
  SharedView.mkAppState "#ffffff" 1 None 0 0 ∅ ∅.

Definition scrolledAppState : SharedView.AppState :=
  SharedView.mkAppState "#fff9db" 2 (Some 20) 340 (-75) {["x" := true]} ∅.

(** The local user has [y] (version 1) selected; a remote update of [y]
    to version 2 arrives. *)
Definition y1 : Element := el "y" 1 1 "local y".
Definition y2 : Element := el "y" 2 5 "remote y".

Definition selectingY : SharedView.Client :=
  SharedView.mkClient (Some "tok") (Some editDrawing) ada true
    (Some (SharedView.mkScene [y1]
             (SharedView.mkAppState "#ffffff" 1 None 0 0 {["y" := true]} ∅)))
    false [y1] {["y" := Tracker.mkInfo 1 1]} ∅ [] 0
    (SharedView.mkCaptured (Some "tok") None) None.

(** A session that is connected, before any cursor emission. *)
Definition connected (d : SharedView.SharedDrawing) : SharedView.Client :=
  SharedView.mkClient (Some "tok") (Some d) ada true None false [] ∅ ∅ [] 0
    (SharedView.mkCaptured (Some "tok") None) None.

(** 100 pointer moves within 50 ms: two per millisecond from [t0]. *)
Definition hundredMoves (t0 : Z) : list (Z * SharedView.PointerPayload) :=
  (λ i : nat, (t0 + Z.of_nat i / 2, SharedView.mkPointer (Z.of_nat i, 0) "up"))
    <$> seq 0 100.

(** A burst of three edits within one debounce window on a drawing shared
    with edit permission, then quiet until the wait has elapsed. The last
    edit leaves [x] at version 3, a tombstone [z] and a new element [w]. *)
Definition finalElements : list Element :=
  [el "x" 3 9 "x moved";
   {| el_id := "z"; el_version := Some 2; el_versionNonce := Some 4;
      el_isDeleted := true; el_payload := "z" |};
   el "w" 1 6 "w"].

Definition threeEdits : list (Z * (SharedView.Scene * list Element)) :=
  [(100, (SharedView.mkScene [el "x" 1 3 "x"] plainAppState, [el "x" 1 3 "x"]));
   (400, (SharedView.mkScene [el "x" 2 8 "x"; el "z" 1 2 "z"] plainAppState,
          [el "x" 2 8 "x"; el "z" 1 2 "z"]));
   (900, (SharedView.mkScene finalElements scrolledAppState, finalElements))].

Definition editBurst : list (Z * SharedView.Event) :=
  SharedView.burstEvents threeEdits ++ [(2400, SharedView.Wait)].

(** A view-only share link on the drawing [D]. *)
Definition viewLink : SharedRoute.ShareLink :=
  SharedRoute.mkShareLink "view" true None "D".

Definition storedDrawing : SharedRoute.DrawingRow :=
  SharedRoute.mkDrawingRow "Plan" "[]" "{}" "{}" 1.

Definition sharedDb : SharedRoute.Db :=
  SharedRoute.mkDb {["tok" := viewLink]} {["D" := storedDrawing]}.

Definition someUpdate : SharedRoute.UpdateBody :=
  SharedRoute.mkUpdateBody (Some "[{}]") (Some "{}") None.

(** The same drawing behind an edit link that expires at [5000]. *)
Definition editLink : SharedRoute.ShareLink :=
  SharedRoute.mkShareLink "edit" true (Some 5000) "D".

Definition editableDb : SharedRoute.Db :=
  SharedRoute.mkDb {["tok" := editLink]} {["D" := storedDrawing]}.

(** Requests of two clients with a sweep in between, limit 3. *)
Definition mixedTraffic : list (Z * RateLimit.Event) :=
  [(0, RateLimit.Request "/drawings" "10.0.0.1");
   (5, RateLimit.Request "/api/auth/session" "10.0.0.1");
   (10, RateLimit.Request "/drawings" "10.0.0.2");
   (20, RateLimit.Sweep);
   (30, RateLimit.Request "/drawings/D" "10.0.0.1");
   (40, RateLimit.Request "/collections" "10.0.0.1");
   (50, RateLimit.Request "/drawings" "10.0.0.1");
   (60, RateLimit.Request "/drawings" "10.0.0.1")].

Definition fiveRequests : list (Z * string) :=
  [(0, "/drawings"); (10, "/drawings/D"); (20, "/collections");
   (30, "/drawings"); (900000, "/drawings")].

(** A list is cached, read, read again after its time, cached anew and
    invalidated by a write. *)
Definition cacheHistory : list (Z * DrawingsCache.Op) :=
  [(0, DrawingsCache.Get "k");
   (10, DrawingsCache.Put "k" "[1]");
   (20, DrawingsCache.Get "k");
   (5010, DrawingsCache.Get "k");
   (6000, DrawingsCache.Sweep);
   (6011, DrawingsCache.Get "k");
   (6020, DrawingsCache.Put "k" "[1,2]");
   (6030, DrawingsCache.Get "k");
   (6040, DrawingsCache.Invalidate);
   (6050, DrawingsCache.Get "k")].

(** The session of [selectingY] after the selection is cleared, a cursor of
    user [u2] and the remote update of [y] have arrived. *)
Definition cursorOfU2 : SharedView.Collaborator :=
  SharedView.mkCollaborator (12, 34) "up" "Bea" "#1971c2" "u2".

Definition receiving : SharedView.Client :=
  SharedView.set_cursorBuffer {["u2" := cursorOfU2]}
    (SharedView.onElementUpdate [y2] (SharedView.select ∅ selectingY)).

(** A drawing of ada's behind her edit link, and what bob tries on it: to
    delete it, to deactivate it, and to create a link with its token. *)
Definition adasLink : ShareLinks.LinkRow :=
  ShareLinks.mkLinkRow "tok" "ada" editLink.

Definition adasStore : ShareLinks.Store :=
  ShareLinks.mkStore {["L" := adasLink]}
    {["D" := ShareLinks.mkOwnedDrawing (Some "ada") storedDrawing]}.

Definition bobsRequests : list (Z * string * ShareLinks.Request) :=
  [(10, "bob", ShareLinks.Delete "L");
   (20, "bob", ShareLinks.Put "L" ShareLinks.Undefined ShareLinks.Null
                 ShareLinks.Undefined);
   (30, "bob", ShareLinks.Post "L2" "tok" "D" ShareLinks.Undefined
                 ShareLinks.Undefined)].


End Examples.

(** * Properties *)

(** ** Insertion-ordered maps *)

Section OrderedMapFacts.

Import OrderedMap.

Implicit Types (k : string) (x e : Element) (M : list Element).

Lemma get_Some k M e : get k M = Some e → el_id e = k ∧ e ∈ M.
Proof.
  induction M as [|a M IH]; simpl; [done|].
  case_decide as Ha.
  - intros [= <-]. split; [done | left].
  - intros H. destruct (IH H) as [? ?]. split; [done | by right].
Qed.

Lemma get_None k M : get k M = None ↔ k ∉ ids M.
Proof.
  induction M as [|a M IH]; simpl.
  - split; [intros _; apply not_elem_of_nil | done].
  - rewrite not_elem_of_cons. case_decide as Ha.
    + split; [done | intros [? _]; congruence].
    + rewrite IH. split; [intros ?; split; congruence | tauto].
Qed.

Lemma get_is_Some k M : k ∈ ids M → is_Some (get k M).
Proof.
  intros Hin. destruct (get k M) eqn:E; [by eexists|].
  apply get_None in E. contradiction.
Qed.

(** With distinct ids, the entry at a position is the one [get] finds. *)
Lemma get_lookup M (i : nat) e :
  NoDup (ids M) → M !! i = Some e → get (el_id e) M = Some e.
Proof.
  revert i. induction M as [|a M IH]; intros i Hnd Hi; [done|].
  simpl in Hnd. apply NoDup_cons in Hnd as [Ha Hnd].
  destruct i as [|i]; simpl in *.
  - injection Hi as ->. by rewrite decide_True.
  - case_decide as Hid.
    + exfalso. apply Ha. rewrite Hid.
      apply list_elem_of_fmap. exists e. split; [done|].
      by eapply list_elem_of_lookup_2.
    + by eapply IH.
Qed.

Lemma upsert_absent f x M : el_id x ∉ ids M → upsert f x M = M ++ [x].
Proof.
  induction M as [|a M IH]; simpl; [done|].
  rewrite not_elem_of_cons. intros [Hne Hnin].
  rewrite decide_False by done. by rewrite IH.
Qed.

Lemma ids_upsert_present f x M :
  (∀ e, el_id e = el_id x → el_id (f e) = el_id x) →
  el_id x ∈ ids M → ids (upsert f x M) = ids M.
Proof.
  intros Hf. induction M as [|a M IH]; simpl.
  - intros H. by apply elem_of_nil in H.
  - intros Hin. case_decide as Ha; simpl.
    + by rewrite Hf, Ha.
    + f_equal. apply IH. apply elem_of_cons in Hin as [?|?]; [congruence | done].
Qed.

Lemma ids_upsert f x M :
  (∀ e, el_id e = el_id x → el_id (f e) = el_id x) →
  ids (upsert f x M)
  = ids M ++ (if decide (el_id x ∈ ids M) then [] else [el_id x]).
Proof.
  intros Hf. case_decide as Hin.
  - rewrite ids_upsert_present by done. by rewrite app_nil_r.
  - rewrite upsert_absent by done. unfold ids. by rewrite fmap_app.
Qed.

Lemma NoDup_ids_upsert f x M :
  (∀ e, el_id e = el_id x → el_id (f e) = el_id x) →
  NoDup (ids M) → NoDup (ids (upsert f x M)).
Proof.
  intros Hf Hnd. rewrite ids_upsert by done. case_decide as Hin.
  - by rewrite app_nil_r.
  - apply NoDup_app. split; [done|]. split; [|apply NoDup_singleton].
    intros y Hy Hy'. apply list_elem_of_singleton in Hy'. by subst.
Qed.

(** What [get] sees after an [upsert]. *)
Lemma get_upsert f x M k :
  (∀ e, el_id e = el_id x → el_id (f e) = el_id x) →
  get k (upsert f x M)
  = if decide (el_id x = k)
    then Some (match get k M with Some e => f e | None => x end)
    else get k M.
Proof.
  intros Hf. induction M as [|a M IH]; simpl.
  - by case_decide.
  - destruct (decide (el_id a = el_id x)) as [Ha|Ha]; simpl.
    + destruct (decide (el_id x = k)) as [Hk|Hk].
      * rewrite decide_True by (rewrite Hf; done).
        by rewrite decide_True by congruence.
      * rewrite decide_False by (rewrite Hf; done).
        by rewrite decide_False by congruence.
    + destruct (decide (el_id a = k)) as [Hak|Hak].
      * by rewrite decide_False by congruence.
      * apply IH.
Qed.

(** Maps with distinct ids are determined by their ids and their entries. *)
Lemma ordered_map_ext M1 M2 :
  NoDup (ids M1) → ids M1 = ids M2 → (∀ k, get k M1 = get k M2) → M1 = M2.
Proof.
  revert M2. induction M1 as [|a M1 IH]; intros [|b M2] Hnd Hids Hget;
    try done.
  simpl in Hids. injection Hids as Hab Hids.
  simpl in Hnd. apply NoDup_cons in Hnd as [Ha Hnd].
  assert (a = b) as ->.
  { specialize (Hget (el_id a)). simpl in Hget.
    rewrite decide_True in Hget by done.
    rewrite decide_True in Hget by done. congruence. }
  f_equal. apply IH; [done..|].
  intros k. specialize (Hget k). simpl in Hget.
  case_decide as Hk; [|done].
  subst k. transitivity (@None Element).
  - by apply get_None.
  - symmetry. apply get_None. by rewrite <- Hids.
Qed.

End OrderedMapFacts.

(** ** Reconciliation, id by id *)

Section SyncFacts.

Import OrderedMap Sync.

Implicit Types (k : string) (x y l r : Element) (M L R : list Element).

Lemma resolve_id l r : el_id l = el_id r → el_id (resolve l r) = el_id r.
Proof. unfold resolve. by destruct (remoteWins l r). Qed.

Lemma ver_resolve l r : ver l ≤ ver (resolve l r).
Proof.
  unfold resolve, remoteWins.
  destruct (ver l <? ver r) eqn:E1; simpl; [lia|].
  destruct (ver r =? ver l) eqn:E2; simpl; [|lia].
  destruct (nonce r =? nonce l); simpl; lia.
Qed.

(** The decision reads the local element's version and nonce only. *)
Lemma remoteWins_key l l' r :
  ver l = ver l' → nonce l = nonce l' → remoteWins l r = remoteWins l' r.
Proof. unfold remoteWins. by intros -> ->. Qed.

Lemma remoteWins_false l r :
  remoteWins l r = false →
  ver r ≤ ver l ∧ (ver r = ver l → nonce r = nonce l).
Proof.
  unfold remoteWins. intros H.
  apply orb_false_elim in H as [H1 H2].
  split; [lia|]. intros Hv.
  rewrite (proj2 (Z.eqb_eq _ _) Hv) in H2. simpl in H2.
  apply negb_false_iff in H2. lia.
Qed.

Lemma remoteWins_true l r :
  remoteWins l r = true →
  ver l < ver r ∨ (ver r = ver l ∧ nonce r ≠ nonce l).
Proof.
  unfold remoteWins. intros H.
  apply orb_true_elim in H as [H|H]; [left; lia|].
  apply andb_true_iff in H as [H1 H2]. apply negb_true_iff in H2.
  right. lia.
Qed.

Lemma get_mergeRemote k M r :
  get k (mergeRemote M r) = stepEntry k (get k M) r.
Proof.
  unfold mergeRemote, stepEntry.
  rewrite get_upsert by (intros e He; by apply resolve_id).
  done.
Qed.

Lemma get_foldl_mergeRemote k R M :
  get k (foldl mergeRemote M R) = foldl (stepEntry k) (get k M) R.
Proof.
  revert M. induction R as [|r R IH]; intros M; simpl; [done|].
  by rewrite IH, get_mergeRemote.
Qed.

Lemma stepElement_eq k x r : el_id r = k → stepElement k x r = resolve x r.
Proof. intros. unfold stepElement. by rewrite decide_True. Qed.

Lemma stepElement_ne k x r : el_id r ≠ k → stepElement k x r = x.
Proof. intros. unfold stepElement. by rewrite decide_False. Qed.

Lemma stepEntry_Some k x r : stepEntry k (Some x) r = Some (stepElement k x r).
Proof. unfold stepEntry, stepElement. by case_decide. Qed.

Lemma stepEntry_None_eq k r : el_id r = k → stepEntry k None r = Some r.
Proof. intros. unfold stepEntry. by rewrite decide_True. Qed.

Lemma stepEntry_ne k o r : el_id r ≠ k → stepEntry k o r = o.
Proof. intros. unfold stepEntry. by rewrite decide_False. Qed.

Lemma foldl_stepEntry_Some k R x :
  foldl (stepEntry k) (Some x) R = Some (foldl (stepElement k) x R).
Proof.
  revert x. induction R as [|r R IH]; intros x; simpl; [done|].
  by rewrite stepEntry_Some, IH.
Qed.

Lemma ver_foldl_stepElement k R x : ver x ≤ ver (foldl (stepElement k) x R).
Proof.
  revert x. induction R as [|r R IH]; intros x; simpl; [lia|].
  etransitivity; [|apply IH].
  unfold stepElement. case_decide; [apply ver_resolve | lia].
Qed.

(** Two stored elements with the same version and nonce fare alike: either
    the batch leaves both as they are, or it overwrites both with the same
    element. *)
Lemma foldl_stepElement_key k R x y :
  ver x = ver y → nonce x = nonce y →
  (foldl (stepElement k) x R = x ∧ foldl (stepElement k) y R = y)
  ∨ foldl (stepElement k) x R = foldl (stepElement k) y R.
Proof.
  revert x y. induction R as [|r R IH]; intros x y Hv Hn; simpl; [by left|].
  destruct (decide (el_id r = k)) as [Hr|Hr].
  - rewrite !stepElement_eq by done.
    unfold resolve. rewrite (remoteWins_key x y r Hv Hn).
    destruct (remoteWins y r); [by right | by apply IH].
  - rewrite !stepElement_ne by done. by apply IH.
Qed.

(** Re-applying the head of a batch after the batch changes nothing, when
    the rest of the batch is already idempotent. *)
Lemma foldl_stepElement_absorb k R x r :
  (∀ z, foldl (stepElement k) (foldl (stepElement k) z R) R
        = foldl (stepElement k) z R) →
  x = r ∨ remoteWins x r = false →
  foldl (stepElement k) (resolve (foldl (stepElement k) x R) r) R
  = foldl (stepElement k) x R.
Proof.
  intros Hidem Hx. set (y := foldl (stepElement k) x R).
  unfold resolve. destruct (remoteWins y r) eqn:Hw; [|apply Hidem].
  destruct Hx as [->|Hx]; [done|].
  apply remoteWins_true in Hw. apply remoteWins_false in Hx as [Hle Hnn].
  pose proof (ver_foldl_stepElement k R x) as Hmono. fold y in Hmono.
  destruct Hw as [Hlt|[Hv Hne]]; [lia|].
  assert (ver r = ver x) as Hvx by lia.
  destruct (foldl_stepElement_key k R x r) as [[Hfix _]|Heq];
    [lia | by symmetry; apply Hnn | |].
  - fold y in Hfix. rewrite Hfix in Hne. specialize (Hnn Hvx). lia.
  - by rewrite <- Heq.
Qed.

Lemma foldl_stepElement_idem k R x :
  foldl (stepElement k) (foldl (stepElement k) x R) R
  = foldl (stepElement k) x R.
Proof.
  revert x. induction R as [|r R IH]; intros x; simpl; [done|].
  destruct (decide (el_id r = k)) as [Hr|Hr].
  - rewrite !stepElement_eq by done.
    apply foldl_stepElement_absorb; [done|].
    unfold resolve. destruct (remoteWins x r) eqn:E; [by left | by right].
  - rewrite !stepElement_ne by done. apply IH.
Qed.

(** Idempotence for the entry of one id. *)
Lemma foldl_stepEntry_idem k R (o : option Element) :
  foldl (stepEntry k) (foldl (stepEntry k) o R) R = foldl (stepEntry k) o R.
Proof.
  destruct o as [x|].
  { by rewrite !foldl_stepEntry_Some, foldl_stepElement_idem. }
  induction R as [|r R IH]; simpl; [done|].
  destruct (decide (el_id r = k)) as [Hr|Hr].
  - rewrite stepEntry_None_eq by done.
    rewrite !foldl_stepEntry_Some, stepEntry_Some, foldl_stepEntry_Some.
    rewrite stepElement_eq by done. f_equal.
    apply foldl_stepElement_absorb; [apply foldl_stepElement_idem | by left].
  - rewrite (stepEntry_ne k None) by done.
    by rewrite stepEntry_ne by done.
Qed.

(** *** The merged sequence *)

Lemma ids_mergeRemote M r :
  ids (mergeRemote M r)
  = ids M ++ (if decide (el_id r ∈ ids M) then [] else [el_id r]).
Proof. apply ids_upsert. intros e He. by apply resolve_id. Qed.

Lemma NoDup_mergeRemote M r : NoDup (ids M) → NoDup (ids (mergeRemote M r)).
Proof. apply NoDup_ids_upsert. intros e He. by apply resolve_id. Qed.

Lemma NoDup_foldl_mergeRemote R M :
  NoDup (ids M) → NoDup (ids (foldl mergeRemote M R)).
Proof.
  revert M. induction R as [|r R IH]; intros M Hnd; simpl; [done|].
  by apply IH, NoDup_mergeRemote.
Qed.

(** Merging keeps the ids that are there, in place, and adds new ones
    behind them. *)
Lemma ids_foldl_mergeRemote_prefix R M :
  ∃ extra, ids (foldl mergeRemote M R) = ids M ++ extra.
Proof.
  revert M. induction R as [|r R IH]; intros M; simpl.
  - exists []. by rewrite app_nil_r.
  - destruct (IH (mergeRemote M r)) as [extra ->].
    rewrite ids_mergeRemote, <- app_assoc. by eexists.
Qed.

Lemma ids_foldl_mergeRemote_present R M :
  (∀ r, r ∈ R → el_id r ∈ ids M) → ids (foldl mergeRemote M R) = ids M.
Proof.
  revert M. induction R as [|r R IH]; intros M Hin; simpl; [done|].
  assert (ids (mergeRemote M r) = ids M) as Hids.
  { rewrite ids_mergeRemote, decide_True; [by rewrite app_nil_r|].
    apply Hin. left. }
  rewrite IH; [done|].
  intros r' Hr'. rewrite Hids. apply Hin. by right.
Qed.

Lemma ids_foldl_mergeRemote_covers R M r :
  r ∈ R → el_id r ∈ ids (foldl mergeRemote M R).
Proof.
  revert M. induction R as [|a R IH]; intros M Hr; simpl.
  - by apply elem_of_nil in Hr.
  - apply elem_of_cons in Hr as [->|Hr]; [|by apply IH].
    destruct (ids_foldl_mergeRemote_prefix R (mergeRemote M a)) as [extra ->].
    apply elem_of_app. left. rewrite ids_mergeRemote.
    case_decide; [by rewrite app_nil_r|].
    apply elem_of_app. right. left.
Qed.

Lemma NoDup_indexById L : NoDup (ids (indexById L)).
Proof.
  unfold indexById.
  assert (∀ M, NoDup (ids M) →
    NoDup (ids (foldl (λ acc localEl, set localEl acc) M L))) as H.
  { induction L as [|a L IH]; intros M Hnd; simpl; [done|].
    apply IH. by apply NoDup_ids_upsert. }
  apply H. constructor.
Qed.

(** A local sequence with distinct ids is its own lookup. *)
Lemma indexById_NoDup L : NoDup (ids L) → indexById L = L.
Proof.
  unfold indexById.
  assert (∀ M, NoDup (ids (M ++ L)) →
    foldl (λ acc localEl, set localEl acc) M L = M ++ L) as H.
  { induction L as [|a L IH]; intros M Hnd; simpl; [by rewrite app_nil_r|].
    unfold set. rewrite upsert_absent.
    - rewrite IH; rewrite <- app_assoc; done.
    - unfold ids in Hnd. rewrite fmap_app in Hnd.
      apply NoDup_app in Hnd as (_ & Hdisj & _).
      intros Hin. apply (Hdisj _ Hin). left. }
  intros Hnd. by apply (H []).
Qed.

Lemma NoDup_reconcileElements L R : NoDup (ids (reconcileElements L R)).
Proof. apply NoDup_foldl_mergeRemote, NoDup_indexById. Qed.

(** In a batch with distinct ids, one remote element decides the entry of
    its id. *)
Lemma foldl_stepElement_absent k R x :
  k ∉ ids R → foldl (stepElement k) x R = x.
Proof.
  revert x. induction R as [|a R IH]; intros x; simpl; [done|].
  rewrite not_elem_of_cons. intros [Hne Hnin].
  rewrite stepElement_ne by done. by apply IH.
Qed.

Lemma foldl_stepElement_NoDup R x r :
  NoDup (ids R) → r ∈ R → foldl (stepElement (el_id r)) x R = resolve x r.
Proof.
  revert x. induction R as [|a R IH]; intros x Hnd Hr; simpl.
  - by apply elem_of_nil in Hr.
  - simpl in Hnd. apply NoDup_cons in Hnd as [Ha Hnd].
    apply elem_of_cons in Hr as [->|Hr].
    + rewrite stepElement_eq by done. by apply foldl_stepElement_absent.
    + rewrite stepElement_ne; [by apply IH|].
      intros Heq. apply Ha. rewrite Heq.
      apply list_elem_of_fmap. by exists r.
Qed.

Lemma foldl_stepEntry_None_NoDup R r :
  NoDup (ids R) → r ∈ R → foldl (stepEntry (el_id r)) None R = Some r.
Proof.
  induction R as [|a R IH]; intros Hnd Hr; simpl.
  - by apply elem_of_nil in Hr.
  - simpl in Hnd. apply NoDup_cons in Hnd as [Ha Hnd].
    apply elem_of_cons in Hr as [->|Hr].
    + rewrite stepEntry_None_eq by done.
      rewrite foldl_stepEntry_Some. f_equal. by apply foldl_stepElement_absent.
    + rewrite stepEntry_ne; [by apply IH|].
      intros Heq. apply Ha. rewrite Heq.
      apply list_elem_of_fmap. by exists r.
Qed.

(** The entry at a local position after the merge. *)
Lemma reconcileElements_lookup L R (i : nat) l r :
  NoDup (ids L) → NoDup (ids R) →
  L !! i = Some l → r ∈ R → el_id r = el_id l →
  reconcileElements L R !! i = Some (resolve l r).
Proof.
  intros HL HR Hi Hr Hid. unfold reconcileElements.
  rewrite indexById_NoDup by done.
  destruct (ids_foldl_mergeRemote_prefix R L) as [extra Hids].
  assert (ids (foldl mergeRemote L R) !! i = Some (el_id l)) as Hidi.
  { rewrite Hids. apply lookup_app_l_Some.
    unfold ids. by rewrite list_lookup_fmap, Hi. }
  unfold ids in Hidi. rewrite list_lookup_fmap in Hidi.
  destruct (foldl mergeRemote L R !! i) as [e|] eqn:He; [|done].
  simpl in Hidi. injection Hidi as Hel.
  pose proof (get_lookup _ _ _ (NoDup_foldl_mergeRemote R L HL) He) as Hget.
  rewrite get_foldl_mergeRemote, Hel in Hget.
  rewrite (get_lookup L i l HL Hi) in Hget.
  rewrite foldl_stepEntry_Some, <- Hid in Hget.
  rewrite foldl_stepElement_NoDup in Hget by done.
  congruence.
Qed.

(** A remote element with a new id ends up behind the local positions. *)
Lemma reconcileElements_appended L R r :
  NoDup (ids L) → NoDup (ids R) → r ∈ R → el_id r ∉ ids L →
  r ∈ drop (length L) (reconcileElements L R).
Proof.
  intros HL HR Hr Hnew. unfold reconcileElements.
  rewrite indexById_NoDup by done.
  assert (get (el_id r) (foldl mergeRemote L R) = Some r) as Hget.
  { rewrite get_foldl_mergeRemote.
    rewrite (proj2 (get_None _ _) Hnew). by apply foldl_stepEntry_None_NoDup. }
  apply get_Some in Hget as [_ Hin].
  apply list_elem_of_lookup in Hin as [j Hj].
  destruct (ids_foldl_mergeRemote_prefix R L) as [extra Hids].
  destruct (decide (j < length L)%nat) as [Hlt|Hge].
  - exfalso. apply Hnew.
    assert (ids (foldl mergeRemote L R) !! j = Some (el_id r)) as Hidj.
    { unfold ids. by rewrite list_lookup_fmap, Hj. }
    rewrite Hids, lookup_app_l in Hidj by (unfold ids; by rewrite length_fmap).
    by eapply list_elem_of_lookup_2.
  - apply list_elem_of_lookup. exists (j - length L)%nat.
    rewrite lookup_drop. rewrite <- Hj. f_equal. lia.
Qed.

(** Re-applying a batch to a merged sequence changes nothing. *)
Lemma foldl_mergeRemote_idem R M :
  NoDup (ids M) →
  foldl mergeRemote (foldl mergeRemote M R) R = foldl mergeRemote M R.
Proof.
  intros Hnd. apply ordered_map_ext.
  - by apply NoDup_foldl_mergeRemote, NoDup_foldl_mergeRemote.
  - apply ids_foldl_mergeRemote_present.
    intros r Hr. by apply ids_foldl_mergeRemote_covers.
  - intros k. rewrite !get_foldl_mergeRemote. apply foldl_stepEntry_idem.
Qed.

End SyncFacts.

(** ** The claims *)

Section TrackerClaims.

Import Tracker.

(** C3. [hasElementChanged] on an id the tracker has never seen returns
    [true] and records the element's (version, versionNonce), and a second
    call on the same unmodified element then returns [false]; on an id that
    has been seen it leaves the tracker as it is and returns [true] exactly
    when the stored pair differs from the element's current pair, missing
    fields being read as 0 by [ver] and [nonce]. *)
Theorem hasElementChanged_detects_change
    (element : Element) (m : gmap string ElementVersionInfo) :
  match m !! el_id element with
  | None =>
      hasElementChanged element m
      = (true, <[el_id element := mkInfo (ver element) (nonce element)]> m)
      ∧ (hasElementChanged element (hasElementChanged element m).2).1 = false
  | Some previous =>
      (hasElementChanged element m).2 = m
      ∧ ((hasElementChanged element m).1 = true
         ↔ (version previous, versionNonce previous)
           ≠ (ver element, nonce element))
  end.
Proof.
  destruct (m !! el_id element) as [previous|] eqn:Hm.
  - unfold hasElementChanged. rewrite Hm. simpl. split; [done|].
    rewrite orb_true_iff, !negb_true_iff, !Z.eqb_neq.
    split.
    + intros [H|H] [= ? ?]; contradiction.
    + intros Hne.
      destruct (decide (version previous = ver element)) as [Hv|Hv]; [|by left].
      right. intros Hn. apply Hne. congruence.
  - unfold hasElementChanged at 1 3. rewrite Hm. split; [done|]. simpl.
    unfold hasElementChanged, recordElementVersion.
    rewrite lookup_insert_eq. simpl.
    by rewrite !Z.eqb_refl.
Qed.

End TrackerClaims.

Section ReconcileClaims.

Import Sync Examples.

(** C5. Reconciliation is idempotent with respect to re-applying the same
    remote batch: [reconcile (reconcile L R) R = reconcile L R] for every
    local sequence [L] and remote batch [R]. *)
Theorem reconcileElements_idempotent (L R : list Element) :
  reconcileElements (reconcileElements L R) R = reconcileElements L R.
Proof.
  unfold reconcileElements at 1.
  rewrite indexById_NoDup by apply NoDup_reconcileElements.
  unfold reconcileElements.
  apply foldl_mergeRemote_idem, NoDup_indexById.
Qed.

(** C1. For local and remote inputs with distinct ids and an id present in
    both, at the local element's position the result holds the remote
    element when its version is greater, the remote element when the
    versions are equal and the nonces differ, and the local element when the
    versions and nonces are equal or the remote version is smaller; every
    remote element whose id is absent locally is appended behind the local
    positions. *)
Theorem reconcileElements_resolves_conflicts (L R : list Element) :
  NoDup (ids L) → NoDup (ids R) →
  (∀ (i : nat) l r, L !! i = Some l → r ∈ R → el_id r = el_id l →
     (ver l < ver r → reconcileElements L R !! i = Some r)
     ∧ (ver r = ver l → nonce r ≠ nonce l → reconcileElements L R !! i = Some r)
     ∧ (ver r = ver l → nonce r = nonce l → reconcileElements L R !! i = Some l)
     ∧ (ver r < ver l → reconcileElements L R !! i = Some l))
  ∧ (∀ r, r ∈ R → el_id r ∉ ids L →
       r ∈ drop (length L) (reconcileElements L R)).
Proof.
  intros HL HR. split.
  - intros i l r Hi Hr Hid.
    rewrite (reconcileElements_lookup L R i l r) by done.
    unfold resolve, remoteWins.
    repeat split; intros.
    + by rewrite (proj2 (Z.ltb_lt _ _)).
    + rewrite (proj2 (Z.eqb_eq _ _)), (proj2 (Z.eqb_neq _ _)) by done.
      by rewrite orb_true_r.
    + rewrite (proj2 (Z.ltb_ge _ _)) by lia.
      rewrite (proj2 (Z.eqb_eq (nonce r) _)) by done.
      by rewrite andb_false_r.
    + rewrite (proj2 (Z.ltb_ge _ _)) by lia.
      by rewrite (proj2 (Z.eqb_neq (ver r) _)) by lia.
  - intros r Hr Hnew. by apply reconcileElements_appended.
Qed.

End ReconcileClaims.

(** ** The render loop and the selection *)

Section RenderLoopFacts.

Import OrderedMap Sync SharedView.

Implicit Types (st : Client) (scene : Scene) (sel : gmap string bool).

(** Elements a predicate on ids rejects do not disturb the ones it keeps. *)
Lemma filter_upsert_frame (P : string → bool) f x (M : list Element) :
  (∀ e, el_id e = el_id x → el_id (f e) = el_id x) →
  P (el_id x) = false →
  filter (λ e, P (el_id e) = true) (upsert f x M)
  = filter (λ e, P (el_id e) = true) M.
Proof.
  intros Hf Hx. induction M as [|a M IH]; simpl.
  - rewrite filter_cons_False; [done | by rewrite Hx].
  - case_decide as Ha.
    + rewrite !filter_cons.
      rewrite decide_False by (rewrite Hf, Hx; done).
      by rewrite decide_False by (rewrite Ha, Hx; done).
    + rewrite !filter_cons. by rewrite IH.
Qed.

Lemma filter_foldl_mergeRemote_frame (P : string → bool) (R M : list Element) :
  (∀ r, r ∈ R → P (el_id r) = false) →
  filter (λ e, P (el_id e) = true) (foldl mergeRemote M R)
  = filter (λ e, P (el_id e) = true) M.
Proof.
  revert M. induction R as [|r R IH]; intros M HR; simpl; [done|].
  rewrite IH by (intros r' Hr'; apply HR; by right).
  apply filter_upsert_frame.
  - intros e He. by apply resolve_id.
  - apply HR. left.
Qed.

(** No element of the batch handed to the reconciliation is selected. *)
Lemma remoteBatch_not_selected sel buffer el :
  el ∈ remoteBatch sel buffer → isSelected sel (el_id el) = false.
Proof. unfold remoteBatch. intros H. by apply list_elem_of_filter in H as [? _]. Qed.

Lemma drainElements_buffer scene st :
  elementUpdateBuffer (drainElements scene st).1 = [].
Proof.
  unfold drainElements. destruct (elementUpdateBuffer st) eqn:E; [done|].
  by destruct (remoteBatch _ _).
Qed.

Lemma drainElements_idle scene st :
  elementUpdateBuffer st = [] → drainElements scene st = (st, None).
Proof. unfold drainElements. by intros ->. Qed.

Lemma drainCursors_buffer scene st :
  elementUpdateBuffer (drainCursors scene st).1 = elementUpdateBuffer st.
Proof. unfold drainCursors. by case_decide. Qed.

(** The elements of the scene after a tick. *)
Lemma liveElements_renderLoop st scene :
  excalidrawAPI st = Some scene →
  liveElements (renderLoop st)
  = default (sceneElements scene) (drainElements scene st).2.
Proof.
  intros Hapi. unfold renderLoop. rewrite Hapi.
  destruct (drainElements scene st) as [st1 elements].
  by destruct (drainCursors scene st1) as [st2 collabs].
Qed.

Lemma elementUpdateBuffer_renderLoop st scene :
  excalidrawAPI st = Some scene → elementUpdateBuffer (renderLoop st) = [].
Proof.
  intros Hapi. unfold renderLoop. rewrite Hapi.
  pose proof (drainElements_buffer scene st) as H1.
  destruct (drainElements scene st) as [st1 elements]. simpl in H1.
  pose proof (drainCursors_buffer scene st1) as H2.
  destruct (drainCursors scene st1) as [st2 collabs]. simpl in *. congruence.
Qed.

Lemma excalidrawAPI_renderLoop st scene :
  excalidrawAPI st = Some scene → is_Some (excalidrawAPI (renderLoop st)).
Proof.
  intros Hapi. unfold renderLoop. rewrite Hapi.
  destruct (drainElements scene st) as [st1 elements].
  destruct (drainCursors scene st1) as [st2 collabs]. by eexists.
Qed.

(** A tick that finds the element buffer empty leaves the elements alone. *)
Lemma liveElements_renderLoop_idle st :
  elementUpdateBuffer st = [] → liveElements (renderLoop st) = liveElements st.
Proof.
  intros Hbuf. destruct (excalidrawAPI st) as [scene|] eqn:Hapi.
  - rewrite (liveElements_renderLoop st scene Hapi), drainElements_idle by done.
    unfold liveElements. by rewrite Hapi.
  - unfold renderLoop. by rewrite Hapi.
Qed.

Lemma liveElements_select sel st : liveElements (select sel st) = liveElements st.
Proof.
  unfold select, liveElements.
  destruct (excalidrawAPI st) eqn:E; simpl; [done | by rewrite E].
Qed.

Lemma elementUpdateBuffer_select sel st :
  elementUpdateBuffer (select sel st) = elementUpdateBuffer st.
Proof. unfold select. by destruct (excalidrawAPI st). Qed.

(** Selected elements of the scene pass a tick untouched. *)
Lemma renderLoop_selected_untouched st scene :
  excalidrawAPI st = Some scene → NoDup (ids (sceneElements scene)) →
  filter (λ e, isSelected (selectedElementIds (sceneAppState scene)) (el_id e) = true)
         (liveElements (renderLoop st))
  = filter (λ e, isSelected (selectedElementIds (sceneAppState scene)) (el_id e) = true)
           (sceneElements scene).
Proof.
  intros Hapi Hnd. rewrite (liveElements_renderLoop st scene Hapi).
  unfold drainElements. destruct (elementUpdateBuffer st) as [|b buf] eqn:Hbuf; [done|].
  simpl. rewrite Hbuf.
  destruct (remoteBatch _ (b :: buf)) as [|r R] eqn:HR; [done|]. simpl.
  unfold reconcileElements. rewrite indexById_NoDup by done.
  apply filter_foldl_mergeRemote_frame.
  intros r' Hr'. rewrite <- HR in Hr'. by eapply remoteBatch_not_selected.
Qed.

End RenderLoopFacts.

Section SelectionClaims.

Import Sync SharedView Examples.

(** C2, as stated, fails: with [y] selected, the tick that drains the
    remote update of [y] empties the buffer without applying the update,
    and the next tick, after [y] has left the selection, has nothing left to
    apply: the scene still holds the old [y]. *)
Lemma selection_exclusion_drops_update :
  let st := onElementUpdate [y2] selectingY in
  let st1 := animationFrame st in
  let st2 := animationFrame (select ∅ st1) in
  y2 ∈ elementUpdateBuffer st
  ∧ ver y1 < ver y2
  ∧ liveElements st1 = [y1]
  ∧ (y2 ∉ elementUpdateBuffer st1)
  ∧ (y2 ∉ liveElements st2).
Proof.
  assert (liveElements
            (animationFrame
               (select ∅ (animationFrame (onElementUpdate [y2] selectingY))))
          = [y1]) as E2 by (by vm_compute).
  assert (elementUpdateBuffer (animationFrame (onElementUpdate [y2] selectingY))
          = []) as E1 by (by vm_compute).
  simpl. rewrite E1, E2.
  split; [by apply list_elem_of_singleton|].
  split; [by vm_compute|].
  split; [by vm_compute|].
  split; [apply not_elem_of_nil|].
  intros H. by apply list_elem_of_singleton in H.
Qed.

(** C2, amended. While an element id is in the local selection, a tick
    leaves the scene's elements with that id as they are; the tick empties
    the element buffer, updates of selected ids included, so whatever the
    selection becomes afterwards the next tick finds nothing to apply and
    the scene's elements stay as the first tick left them. *)
Theorem renderLoop_excludes_selection (st : Client) (scene : Scene) :
  excalidrawAPI st = Some scene →
  NoDup (ids (sceneElements scene)) →
  filter (λ e, isSelected (selectedElementIds (sceneAppState scene)) (el_id e) = true)
         (liveElements (renderLoop st))
  = filter (λ e, isSelected (selectedElementIds (sceneAppState scene)) (el_id e) = true)
           (sceneElements scene)
  ∧ elementUpdateBuffer (renderLoop st) = []
  ∧ (∀ ids', liveElements (renderLoop (select ids' (renderLoop st)))
             = liveElements (renderLoop st)).
Proof.
  intros Hapi Hnd. split; [by apply renderLoop_selected_untouched|].
  pose proof (elementUpdateBuffer_renderLoop st scene Hapi) as Hbuf.
  split; [done|]. intros ids'.
  rewrite liveElements_renderLoop_idle.
  - apply liveElements_select.
  - by rewrite elementUpdateBuffer_select.
Qed.

Lemma renderLoop_excludes_selection_witness :
  filter (λ e, isSelected {["y" := true]} (el_id e) = true)
         (liveElements (renderLoop (onElementUpdate [y2] selectingY)))
  = [y1]
  ∧ elementUpdateBuffer (renderLoop (onElementUpdate [y2] selectingY)) = [].
Proof.
  destruct (renderLoop_excludes_selection
              (onElementUpdate [y2] selectingY)
              (mkScene [y1] (mkAppState "#ffffff" 1 None 0 0 {["y" := true]} ∅)))
    as (H1 & H2 & _).
  - reflexivity.
  - simpl. apply NoDup_singleton.
  - split; [|exact H2]. etransitivity; [exact H1|]. reflexivity.
Defined.

End SelectionClaims.

Section ReconcileWitness.

Import Sync Examples.

Lemma reconcileElements_resolves_conflicts_witness :
  reconcileElements localSeq remoteSet !! 0%nat = Some (el "a" 5 99 "remote a")
  ∧ el "e" 1 1 "remote e" ∈ drop (length localSeq) (reconcileElements localSeq remoteSet).
Proof.
  assert (NoDup (ids localSeq)) as HL.
  { apply (bool_decide_unpack _). by vm_compute. }
  assert (NoDup (ids remoteSet)) as HR.
  { apply (bool_decide_unpack _). by vm_compute. }
  destruct (reconcileElements_resolves_conflicts localSeq remoteSet HL HR)
    as [Hboth Hnew].
  split.
  - destruct (Hboth 0%nat (el "a" 5 10 "local a") (el "a" 5 99 "remote a"))
      as (_ & Htie & _).
    + reflexivity.
    + apply (bool_decide_unpack _). by vm_compute.
    + reflexivity.
    + apply Htie; [reflexivity | by vm_compute].
  - apply Hnew.
    + apply (bool_decide_unpack _). by vm_compute.
    + apply (bool_decide_unpack _). by vm_compute.
Defined.

End ReconcileWitness.

(** ** Cursor throttle *)

Section CursorFacts.

Import SharedView Examples.

Implicit Types (st : Client) (events : list (Z * PointerPayload)).

(** An event is dropped with the state untouched, or emitted more than
    [CURSOR_INTERVAL] after the previous emission, which it replaces. *)
Lemma onPointerUpdate_cases now p st :
  onPointerUpdate now p st = (st, [])
  ∨ (∃ msg, onPointerUpdate now p st = (set_lastCursorEmit now st, [msg])
            ∧ lastCursorEmit st + CURSOR_INTERVAL < now).
Proof.
  unfold onPointerUpdate. destruct (drawing st) as [d|]; [|by left].
  destruct (CURSOR_INTERVAL <? now - lastCursorEmit st) eqn:E; simpl; [|by left].
  destruct (socketRef st); [|by left].
  right. eexists. split; [done|]. lia.
Qed.

Lemma onPointerUpdate_too_soon now p st :
  now - lastCursorEmit st ≤ CURSOR_INTERVAL → onPointerUpdate now p st = (st, []).
Proof.
  intros H. unfold onPointerUpdate. destruct (drawing st); [|done].
  by rewrite (proj2 (Z.ltb_ge _ _)) by lia.
Qed.

Lemma gapped_weaken (l l' : Z) (times : list Z) :
  l' ≤ l → gapped l times → gapped l' times.
Proof. destruct times as [|t rest]; simpl; [done|]. intros ? [? ?]. split; [lia|done]. Qed.

Lemma pointerRun_gapped events st :
  gapped (lastCursorEmit st) (pointerRun events st).2.
Proof.
  revert st. induction events as [|[now p] events IH]; intros st; simpl; [done|].
  destruct (onPointerUpdate_cases now p st) as [->|(msg & -> & Hlt)].
  - specialize (IH st). by destruct (pointerRun events st).
  - specialize (IH (set_lastCursorEmit now st)).
    destruct (pointerRun events (set_lastCursorEmit now st)). simpl in *. done.
Qed.

(** Every emission answers one of the events, at its time. *)
Lemma pointerRun_times events st t :
  t ∈ (pointerRun events st).2 → ∃ p, (t, p) ∈ events.
Proof.
  revert st. induction events as [|[now p] events IH]; intros st; simpl.
  - intros H. by apply elem_of_nil in H.
  - destruct (onPointerUpdate now p st) as [st1 out].
    specialize (IH st1). destruct (pointerRun events st1) as [st2 times].
    simpl in *. intros Ht.
    assert (t = now ∨ t ∈ times) as [->|Hin].
    { destruct out; [by right|]. by apply elem_of_cons in Ht. }
    + exists p. left.
    + destruct (IH Hin) as [p' Hp']. exists p'. by right.
Qed.

Lemma gapped_filter (P : Z → Prop) `{!∀ t, Decision (P t)} (l : Z) (times : list Z) :
  gapped l times → gapped l (filter P times).
Proof.
  revert l. induction times as [|t rest IH]; intros l; simpl; [done|].
  intros [Hlt Hrest]. rewrite filter_cons. case_decide.
  - simpl. split; [done|]. by apply IH.
  - apply IH. eapply gapped_weaken; [|done]. unfold CURSOR_INTERVAL in *. lia.
Qed.

Lemma gapped_elem (l t : Z) (times : list Z) :
  gapped l times → t ∈ times → l + CURSOR_INTERVAL < t.
Proof.
  revert l. induction times as [|u rest IH]; intros l; simpl.
  - intros _ H. by apply elem_of_nil in H.
  - intros [Hu Hrest] Ht. apply elem_of_cons in Ht as [->|Ht]; [done|].
    specialize (IH u Hrest Ht). unfold CURSOR_INTERVAL in *. lia.
Qed.

(** Gapped times inside a span of [width] milliseconds: at most [n] of them
    when [n] gaps do not fit. *)
Lemma gapped_span (l lo width : Z) (times : list Z) (n : nat) :
  gapped l times → (∀ t, t ∈ times → lo ≤ t ≤ lo + width) →
  width < Z.of_nat n * (CURSOR_INTERVAL + 1) → (length times ≤ n)%nat.
Proof.
  revert l lo width times.
  induction n as [|n IH]; intros l lo width times Hg Hin Hw.
  - destruct times as [|t rest]; [done|].
    specialize (Hin t ltac:(left)). lia.
  - destruct times as [|t rest]; simpl; [lia|].
    destruct Hg as [Hlt Hg]. apply le_n_S.
    apply (IH t (t + CURSOR_INTERVAL + 1) (width - CURSOR_INTERVAL - 1));
      [done| |lia].
    intros t' Ht'. pose proof (Hin t ltac:(left)).
    pose proof (Hin t' ltac:(by right)).
    pose proof (gapped_elem t t' rest Hg Ht'). lia.
Qed.

End CursorFacts.

Section CursorClaims.

Import SharedView Examples.

(** C9. For every run of pointer-move events with their timestamps: an
    event arriving 33 ms or less after the previous emission is dropped and
    leaves no trace in the state (nothing is queued); any window of 33 ms
    holds at most one emission; and when all the events lie within 50 ms, at
    most 2 cursor-move messages are emitted. *)
Theorem cursor_moves_throttled (events : list (Z * PointerPayload)) (st : Client) :
  (∀ now p, now - lastCursorEmit st ≤ 33 → onPointerUpdate now p st = (st, []))
  ∧ (∀ w : Z,
       (length (filter (λ t : Z, (w ≤ t ≤ w + 33)%Z) (pointerRun events st).2)
        ≤ 1)%nat)
  ∧ (∀ t0 : Z, (∀ now p, (now, p) ∈ events → t0 ≤ now ≤ t0 + 50) →
           (length (pointerRun events st).2 ≤ 2)%nat).
Proof.
  pose proof (pointerRun_gapped events st) as Hg.
  split; [|split].
  - intros now p H. by apply onPointerUpdate_too_soon.
  - intros w.
    apply (gapped_span (lastCursorEmit st) w 33); [by apply gapped_filter| |done].
    intros t Ht. by apply list_elem_of_filter in Ht as [? _].
  - intros t0 Hwin.
    apply (gapped_span (lastCursorEmit st) t0 50); [done| |done].
    intros t Ht. apply pointerRun_times in Ht as [p Hp]. by eapply Hwin.
Qed.

Lemma cursor_moves_throttled_witness :
  length (hundredMoves 1700000000000) = 100%nat
  ∧ (length (pointerRun (hundredMoves 1700000000000) (connected editDrawing)).2 ≤ 2)%nat.
Proof.
  split; [reflexivity|].
  destruct (cursor_moves_throttled (hundredMoves 1700000000000)
              (connected editDrawing)) as (_ & _ & H).
  apply (H 1700000000000).
  intros now p Hin. unfold hundredMoves in Hin.
  apply list_elem_of_fmap in Hin as (i & [= -> _] & Hi).
  apply elem_of_seq in Hi.
  pose proof (Z.div_pos (Z.of_nat i) 2).
  pose proof (Z.div_lt_upper_bound (Z.of_nat i) 2 50).
  lia.
Defined.

End CursorClaims.

(** ** Debounced persistence *)

Section AutosaveFacts.

Import SharedView Examples.

Implicit Types (st : Client) (c : Captured).

(** Whatever [saveBody] sends carries the elements that are not tombstones
    and the three kept fields of the app state, nothing else. *)
Lemma saveBody_payload c elements appState call :
  call ∈ saveBody c elements appState →
  ∃ tok, cap_token c = Some tok
    ∧ call = UpdateSharedDrawing tok
               (filter (λ e, el_isDeleted e = false) elements)
               (mkSavedAppState (viewBackgroundColor appState)
                  (currentItemFontFamily appState) (gridSize appState)).
Proof.
  unfold saveBody. destruct (cap_token c) as [tok|], (cap_drawing c) as [d|];
    try (intros Hin; by apply elem_of_nil in Hin).
  repeat case_decide; try (intros Hin; by apply elem_of_nil in Hin).
  intros Hin. apply list_elem_of_singleton in Hin. by exists tok.
Qed.

Lemma saveBody_sends_no_tombstone c elements appState tok els app e :
  UpdateSharedDrawing tok els app ∈ saveBody c elements appState →
  e ∈ els → el_isDeleted e = false ∧ e ∈ elements.
Proof.
  intros H He. apply saveBody_payload in H as (tok' & _ & [= -> -> ->]).
  by apply list_elem_of_filter in He.
Qed.

Lemma saveBody_no_drawing c elements appState :
  cap_drawing c = None → saveBody c elements appState = [].
Proof. unfold saveBody. intros ->. by destruct (cap_token c). Qed.

Lemma saveBody_not_edit c d elements appState :
  cap_drawing c = Some d → sd_permission d ≠ "edit" →
  saveBody c elements appState = [].
Proof.
  unfold saveBody. intros -> Hp. destruct (cap_token c); [|done].
  case_decide; [done|]. by rewrite decide_False.
Qed.

Lemma saveClosure_runTimers now st : saveClosure (runTimers now st).1 = saveClosure st.
Proof.
  unfold runTimers. destruct (pendingSave st) as [[due [els app]]|]; [|done].
  by destruct (due <=? now).
Qed.

Lemma saveClosure_handleCanvasChange elements appState st :
  saveClosure (handleCanvasChange elements appState st).1 = saveClosure st.
Proof.
  unfold handleCanvasChange. destruct (drawing st); [|done].
  destruct (isSyncing st); [done|]. by case_decide.
Qed.

Lemma saveClosure_dispatch now cs st :
  saveClosure (foldl (dispatch now) st cs) = saveClosure st.
Proof.
  revert st. induction cs as [|c cs IH]; intros st; simpl; [done|].
  rewrite IH. by destruct c.
Qed.

(** No event replaces the function kept in the [debouncedSave] ref. *)
Lemma saveClosure_step now ev st : saveClosure (step now ev st).1 = saveClosure st.
Proof.
  unfold step. pose proof (saveClosure_runTimers now st) as H.
  destruct (runTimers now st) as [st1 calls]. simpl in H.
  destruct ev as [d|scene|elements appState|]; simpl; try done.
  pose proof (saveClosure_handleCanvasChange elements appState st1) as H'.
  destruct (handleCanvasChange elements appState st1) as [st2 cs]. simpl in *.
  rewrite saveClosure_dispatch. congruence.
Qed.

Lemma runTimers_no_drawing now st :
  cap_drawing (saveClosure st) = None → (runTimers now st).2 = [].
Proof.
  intros Hc. unfold runTimers.
  destruct (pendingSave st) as [[due [els app]]|]; [|done].
  destruct (due <=? now); [|done]. by apply saveBody_no_drawing.
Qed.

Lemma step_no_drawing now ev st :
  cap_drawing (saveClosure st) = None → (step now ev st).2 = [].
Proof.
  intros Hc. unfold step. pose proof (runTimers_no_drawing now st Hc) as H.
  destruct (runTimers now st) as [st1 calls]. simpl in H. subst calls.
  destruct ev as [d|scene|elements appState|]; simpl; try done.
  by destruct (handleCanvasChange elements appState st1).
Qed.

Lemma run_no_drawing events st :
  cap_drawing (saveClosure st) = None → (run events st).2 = [].
Proof.
  revert st. induction events as [|[now ev] events IH]; intros st Hc; simpl; [done|].
  pose proof (step_no_drawing now ev st Hc) as H1.
  pose proof (saveClosure_step now ev st) as H2.
  destruct (step now ev st) as [st1 calls1]. simpl in *. subst calls1.
  specialize (IH st1). rewrite H2 in IH. specialize (IH Hc).
  by destruct (run events st1) as [st2 calls2].
Qed.

(** X19. The session as the page runs it: the save function kept in the
    [debouncedSave] ref is the one of the first render, which has no drawing,
    so whatever is loaded, edited or waited for afterwards, no call reaches
    the store. *)
Lemma mounted_session_never_saves tok identity events :
  (run events (mount tok identity)).2 = [].
Proof. by apply run_no_drawing. Qed.

(** *** A burst of edits through the debounce *)






End AutosaveFacts.

Section PermissionClaims.

Import SharedView SharedRoute Examples.

(** C4. In a session whose permission is not ["edit"] (so for ["view"]), a
    canvas change calls neither the debounced save nor the broadcast and
    leaves the pending save and the version tracker as they were, and the
    save function itself sends nothing for such a drawing; on the server, an
    update through a share link whose permission is not ["edit"] is answered
    with a 403 error and the database is left unchanged. *)
Theorem view_permission_blocks_edits
    (st : Client) (d : SharedDrawing) (elements : list Element) (appState : AppState)
    (now : Z) (tok : string) (b : UpdateBody) (db : Db) (link : ShareLink) :
  drawing st = Some d → sd_permission d ≠ "edit" →
  shareLinks db !! tok = Some link → link_permission link ≠ "edit" →
  ((handleCanvasChange elements appState st).2 = []
   ∧ pendingSave (handleCanvasChange elements appState st).1 = pendingSave st
   ∧ elementVersionMap (handleCanvasChange elements appState st).1
     = elementVersionMap st
   ∧ (∀ t els app, saveBody (mkCaptured t (Some d)) els app = []))
  ∧ ((putShared now tok b db).2 = db
     ∧ status (putShared now tok b db).1 = 403
     ∧ ∃ msg, json (putShared now tok b db).1 = ErrorBody msg).
Proof.
  intros Hd Hp Hlink Hlp. split.
  - unfold handleCanvasChange. rewrite Hd.
    split; [|split; [|split]].
    + destruct (isSyncing st); [done|]. by rewrite decide_False.
    + destruct (isSyncing st); [done|]. by rewrite decide_False.
    + destruct (isSyncing st); [done|]. by rewrite decide_False.
    + intros t els app. by eapply saveBody_not_edit.
  - unfold putShared. rewrite Hlink.
    destruct (link_isActive link); simpl; [|by eauto].
    destruct (link_expiresAt link) as [t|].
    + destruct (t <? now); [by eauto|]. rewrite decide_True by done. by eauto.
    + rewrite decide_True by done. by eauto.
Qed.

Lemma view_permission_blocks_edits_witness :
  (handleCanvasChange finalElements scrolledAppState (connected viewDrawing)).2 = []
  ∧ putShared 1700000000000 "tok" someUpdate sharedDb
    = (mkResponse 403 (ErrorBody "This share link is view-only"), sharedDb).
Proof.
  destruct (view_permission_blocks_edits (connected viewDrawing) viewDrawing
              finalElements scrolledAppState 1700000000000 "tok" someUpdate
              sharedDb viewLink) as [(Hcalls & _) _].
  - reflexivity.
  - discriminate.
  - reflexivity.
  - discriminate.
  - split; [exact Hcalls | reflexivity].
Defined.

(** C8, evaluated. On a drawing shared with edit permission, a burst of
    three edits within one debounce window followed by quiet makes no call
    to the store: the save function kept in the [debouncedSave] ref is the
    one of the first render, whose [drawing] is [null]. The same burst
    through a save function that sees the loaded drawing makes exactly one
    call, carrying the last edit's live elements and the three kept fields
    of its app state. *)
Theorem debouncedSave_keeps_first_render :
  (run ((0, Loaded editDrawing) :: editBurst) (mount (Some "tok") ada)).2 = []
  ∧ (run editBurst
       (withSaveClosure (mkCaptured (Some "tok") (Some editDrawing))
          (set_drawing (Some editDrawing) (mount (Some "tok") ada)))).2
    = [UpdateSharedDrawing "tok"
         [el "x" 3 9 "x moved"; el "w" 1 6 "w"]
         (mkSavedAppState "#fff9db" 2 (Some 20))].
Proof. split; by vm_compute. Qed.

End PermissionClaims.

(** ** The room registry and relay *)

Section ServerFacts.

Import Server.

Implicit Types (st : State) (u : SocketUser) (users : list SocketUser).

Lemma members_socketJoin socket room st r :
  members (socketJoin socket room st) r
  = if decide (room = r) then {[socket]} ∪ members st r else members st r.
Proof.
  unfold members at 1, socketJoin. simpl. rewrite lookup_insert.
  by case_decide; subst.
Qed.

(** After dropping the entries of an id, only a new entry carries it. *)
Lemma filter_replaced (k : string) users u :
  id u = k →
  filter (λ v, id v = k) (filter (λ v, id v ≠ k) users ++ [u]) = [u].
Proof.
  intros Hu. rewrite filter_app.
  assert (filter (λ v, id v = k) (filter (λ v, id v ≠ k) users) = []) as ->.
  { induction users as [|v users IH]; [done|].
    rewrite (filter_cons (λ v, id v ≠ k)). case_decide; [|done].
    by rewrite filter_cons_False. }
  by rewrite filter_cons_True.
Qed.

Lemma setActive_fields a u :
  id (setActive a u) = id u ∧ name (setActive a u) = name u
  ∧ initials (setActive a u) = initials u ∧ color (setActive a u) = color u
  ∧ socketId (setActive a u) = socketId u ∧ isActive (setActive a u) = a.
Proof. done. Qed.

End ServerFacts.

Section ServerClaims.

Import Server.

(** C6. After a [join-room] message the registry's roster for the drawing's
    room holds exactly one participant with the joining user's id, the new
    entry (prior entries with that id are gone, the other participants are
    kept in order), and one [presence-update] carrying that roster is
    emitted to every socket of the room, the joiner's included. *)
Theorem joinRoom_replaces_and_announces
    (socket d : string) (user : JoinUser) (st : State) :
  ∃ roster,
    roomUsers (joinRoom socket d user st).1 !! roomIdOf d = Some roster
    ∧ filter (λ u, id u = ju_id user) roster = [newUserOf socket user]
    ∧ filter (λ u, id u ≠ ju_id user) roster
      = filter (λ u, id u ≠ ju_id user) (default [] (roomUsers st !! roomIdOf d))
    ∧ ∃ e, (joinRoom socket d user st).2 = [e]
        ∧ event e = "presence-update" ∧ payload e = Roster roster
        ∧ recipients (joinRoom socket d user st).1 e
          = members (joinRoom socket d user st).1 (roomIdOf d)
        ∧ socket ∈ recipients (joinRoom socket d user st).1 e.
Proof.
  eexists. split; [|split; [|split]].
  - unfold joinRoom. simpl. apply lookup_insert_eq.
  - by apply filter_replaced.
  - rewrite filter_app, filter_cons_False, filter_nil, app_nil_r by (simpl; tauto).
    rewrite list_filter_filter. apply list_filter_iff. tauto.
  - eexists. split; [done|]. repeat split.
    unfold recipients, joinRoom. simpl.
    unfold members. simpl. rewrite lookup_insert_eq. simpl. set_solver.
Qed.

(** C7. The [cursor-move] and [element-update] handlers leave the server
    state as it is and emit the received payload, as it came, to the sockets
    of the drawing's room other than the sender. *)
Theorem relay_handlers_rebroadcast (socket : string) (data : RelayData) (st : State) :
  relayed "cursor-move" socket data st (cursorMove socket data st)
  ∧ relayed "element-update" socket data st (elementUpdate socket data st).
Proof.
  split.
  - split; [done|]. eexists. split; [done|]. do 3 (split; [done|]).
    unfold recipients. simpl. apply not_elem_of_difference. right.
    by apply elem_of_singleton.
  - split; [done|]. eexists. split; [done|]. do 3 (split; [done|]).
    unfold recipients. simpl. apply not_elem_of_difference. right.
    by apply elem_of_singleton.
Qed.

(** C10. A [user-activity] message leaves the Socket.IO rooms and the
    rosters of the other rooms as they are. When the named room has a
    participant with the sender's socket id, the first such participant gets
    the new [isActive] flag, every other field and every other participant of
    the roster stay as they were, and the roster is announced; when the room
    does not exist or holds no such participant, the state is unchanged and
    nothing is emitted. *)
Theorem userActivity_touches_one_flag
    (socket d : string) (a : bool) (st : State) :
  rooms (userActivity socket d a st).1 = rooms st
  ∧ (∀ r, r ≠ roomIdOf d →
       roomUsers (userActivity socket d a st).1 !! r = roomUsers st !! r)
  ∧ match roomUsers st !! roomIdOf d ≫= list_find (λ u, socketId u = socket) with
    | Some (i, user) =>
        socketId user = socket
        ∧ ∃ users users',
            roomUsers st !! roomIdOf d = Some users
            ∧ users !! i = Some user
            ∧ roomUsers (userActivity socket d a st).1 !! roomIdOf d = Some users'
            ∧ length users' = length users
            ∧ users' !! i = Some (setActive a user)
            ∧ (∀ j, j ≠ i → users' !! j = users !! j)
            ∧ (userActivity socket d a st).2
              = [mkEmit (ToRoom (roomIdOf d)) false "presence-update" (Roster users')]
    | None => userActivity socket d a st = (st, [])
    end.
Proof.
  unfold userActivity.
  destruct (roomUsers st !! roomIdOf d) as [users|] eqn:Hroom; simpl;
    [|by repeat split].
  destruct (list_find (λ u, socketId u = socket) users) as [[i user]|] eqn:Hfind;
    simpl; [|by repeat split].
  apply list_find_Some in Hfind as (Hi & Hsock & _).
  split; [done|]. split.
  - intros r Hr. by rewrite lookup_insert_ne.
  - split; [done|]. exists users, (<[i := setActive a user]> users).
    split; [done|]. split; [done|]. split; [apply lookup_insert_eq|].
    split; [apply length_insert|]. split.
    + apply list_lookup_insert_eq. by eapply lookup_lt_Some.
    + split; [|done]. intros j Hj. by apply list_lookup_insert_ne.
Qed.

End ServerClaims.

(** ** The registry over a connection's lifetime *)

Section RegistryFacts.

Import Server Registry.

Implicit Types (st : State) (u : SocketUser) (users : list SocketUser).

Lemma dropSocket_absent socket users :
  list_find (λ u, socketId u = socket) users = None → dropSocket socket users = users.
Proof. unfold dropSocket. by intros ->. Qed.

Lemma entriesOf_zero socket users :
  entriesOf socket users = 0%nat ↔ list_find (λ u, socketId u = socket) users = None.
Proof.
  unfold entriesOf. rewrite list_find_None, length_zero_iff_nil.
  rewrite Forall_forall. split.
  - intros Hnil u Hu Hs.
    assert (u ∈ filter (λ u, socketId u = socket) users) as Hin
      by (by apply list_elem_of_filter).
    rewrite Hnil in Hin. by apply elem_of_nil in Hin.
  - intros Hall. induction users as [|v users IH]; [done|].
    rewrite filter_cons_False by (apply Hall; left).
    apply IH. intros u Hu. apply Hall. by right.
Qed.

(** Taking out the first participant of the socket takes out exactly one. *)
Lemma entriesOf_dropSocket socket users :
  entriesOf socket (dropSocket socket users) = pred (entriesOf socket users).
Proof.
  unfold dropSocket.
  destruct (list_find (λ u, socketId u = socket) users) as [[i u]|] eqn:Hfind.
  - apply list_find_Some in Hfind as (Hi & Hs & _).
    unfold entriesOf. revert i Hi. induction users as [|v users IH]; intros i Hi; [done|].
    destruct i as [|i]; simpl in *.
    + injection Hi as ->. by rewrite filter_cons_True.
    + rewrite !filter_cons. case_decide; simpl.
      * rewrite (IH i Hi).
        assert (u ∈ filter (λ u, socketId u = socket) users) as Hin.
        { apply list_elem_of_filter. split; [done|]. by eapply list_elem_of_lookup_2. }
        destruct (filter (λ u, socketId u = socket) users); [|done].
        by apply elem_of_nil in Hin.
      * by apply IH.
  - apply entriesOf_zero in Hfind. by rewrite Hfind.
Qed.

Lemma dropSocket_sublist socket users : sublist (dropSocket socket users) users.
Proof.
  unfold dropSocket. destruct (list_find _ users) as [[i u]|]; [|done].
  apply sublist_delete.
Qed.

Lemma NoDup_fmap_sublist {A B} (f : A → B) (l1 l2 : list A) :
  sublist l1 l2 → NoDup (f <$> l2) → NoDup (f <$> l1).
Proof.
  intros Hsub Hnd. apply (sublist_NoDup _ (f <$> l2)); [done | by apply fmap_sublist].
Qed.

(** A roster with distinct user ids keeps them distinct through a join. *)
Lemma NoDup_joined (k : string) users u :
  id u = k → NoDup (id <$> users) →
  NoDup (id <$> (filter (λ v, id v ≠ k) users ++ [u])).
Proof.
  intros Hu Hnd. rewrite fmap_app. apply NoDup_app. split; [|split].
  - eapply NoDup_fmap_sublist; [apply sublist_filter | done].
  - intros x Hx Hx'. apply list_elem_of_singleton in Hx'. subst x.
    apply list_elem_of_fmap in Hx as (v & Hv & Hin).
    apply list_elem_of_filter in Hin as [Hne _]. congruence.
  - simpl. apply NoDup_singleton.
Qed.

Lemma list_find_insert_same {A} (P : A → Prop) `{!∀ x, Decision (P x)}
    (l : list A) (i : nat) (x y : A) :
  list_find P l = Some (i, x) → P y → list_find P (<[i := y]> l) = Some (i, y).
Proof.
  intros Hfind Hy. apply list_find_Some in Hfind as (Hi & Hx & Hbefore).
  apply list_find_Some. split; [|split; [done|]].
  - apply list_lookup_insert_eq. by eapply lookup_lt_Some.
  - intros j z Hj Hlt. rewrite list_lookup_insert_ne in Hj by lia.
    by eapply Hbefore.
Qed.

Lemma distinctUsers_joinRoom socket d user st :
  distinctUsers st → distinctUsers (joinRoom socket d user st).1.
Proof.
  unfold distinctUsers, joinRoom. simpl. intros Hinv.
  apply map_Forall_insert_2; [|done].
  apply NoDup_joined; [done|].
  destruct (roomUsers st !! roomIdOf d) as [users|] eqn:E; simpl.
  - by apply (Hinv _ _ E).
  - constructor.
Qed.

Lemma distinctUsers_userActivity socket d a st :
  distinctUsers st → distinctUsers (userActivity socket d a st).1.
Proof.
  unfold distinctUsers, userActivity. intros Hinv.
  destruct (roomUsers st !! roomIdOf d) as [users|] eqn:E; [|done].
  destruct (list_find _ users) as [[i u]|] eqn:Hfind; [|done]. simpl.
  apply map_Forall_insert_2; [|done].
  apply list_find_Some in Hfind as (Hi & _ & _).
  rewrite list_fmap_insert. simpl.
  rewrite list_insert_id; [by apply (Hinv _ _ E)|].
  by rewrite list_lookup_fmap, Hi.
Qed.

Lemma distinctUsers_disconnect socket st :
  distinctUsers st → distinctUsers (disconnect socket st).1.
Proof.
  unfold distinctUsers, disconnect. simpl. intros Hinv r users Hr.
  rewrite lookup_fmap in Hr.
  destruct (roomUsers st !! r) as [users0|] eqn:E; [|done].
  simpl in Hr. injection Hr as <-.
  eapply NoDup_fmap_sublist; [apply dropSocket_sublist|]. by apply (Hinv _ _ E).
Qed.

Lemma distinctUsers_handle socket m st :
  distinctUsers st → distinctUsers (handle socket m st).1.
Proof.
  destruct m; simpl; [apply distinctUsers_joinRoom | done | done
                     | apply distinctUsers_userActivity
                     | apply distinctUsers_disconnect].
Qed.

Lemma distinctUsers_serve msgs st :
  distinctUsers st → distinctUsers (serve msgs st).1.
Proof.
  revert st. induction msgs as [|[socket m] msgs IH]; intros st Hinv; simpl; [done|].
  pose proof (distinctUsers_handle socket m st Hinv) as H1.
  destruct (handle socket m st) as [st1 out1]. simpl in H1.
  specialize (IH st1 H1). by destruct (serve msgs st1).
Qed.

Lemma elem_of_disconnect_emits socket st e :
  e ∈ (disconnect socket st).2 ↔
  ∃ r users, roomUsers st !! r = Some users ∧ farewell socket (r, users) = Some e.
Proof.
  unfold disconnect. simpl. rewrite list_elem_of_omap. split.
  - intros ([r users] & Hin & Hf). apply elem_of_map_to_list in Hin. eauto.
  - intros (r & users & Hr & Hf). exists (r, users).
    split; [by apply elem_of_map_to_list | done].
Qed.

End RegistryFacts.

Section RegistryProperties.

Import Server Registry.

(** X1. The [disconnect] handler, room by room: a room that is not in the
    registry stays out of it; a roster without a participant of the socket
    is left as it is and nothing is announced to its room; otherwise the
    first participant of the socket, and only that one entry, leaves the
    roster and the new roster is announced to the room. The disconnected
    socket receives none of the announcements. *)
Theorem disconnect_removes_first_entry (socket : string) (st : State) :
  (∀ r,
     match roomUsers st !! r with
     | None => roomUsers (disconnect socket st).1 !! r = None
     | Some users =>
         roomUsers (disconnect socket st).1 !! r = Some (dropSocket socket users)
         ∧ sublist (dropSocket socket users) users
         ∧ entriesOf socket (dropSocket socket users)
           = pred (entriesOf socket users)
         ∧ if decide (entriesOf socket users = 0%nat)
           then dropSocket socket users = users
                ∧ ∀ e, e ∈ (disconnect socket st).2 → target e ≠ ToRoom r
           else mkEmit (ToRoom r) false "presence-update"
                  (Roster (dropSocket socket users)) ∈ (disconnect socket st).2
     end)
  ∧ (∀ e, e ∈ (disconnect socket st).2 →
       socket ∉ recipients (disconnect socket st).1 e).
Proof.
  split.
  - intros r. destruct (roomUsers st !! r) as [users|] eqn:Hr.
    + split; [by unfold disconnect; simpl; rewrite lookup_fmap, Hr|].
      split; [apply dropSocket_sublist|].
      split; [apply entriesOf_dropSocket|].
      case_decide as Hz.
      * apply entriesOf_zero in Hz. split; [by apply dropSocket_absent|].
        intros e He Ht. apply elem_of_disconnect_emits in He
          as (r' & users' & Hr' & Hf).
        unfold farewell in Hf. simpl in Hf.
        destruct (list_find _ users') eqn:Hfind'; [|done].
        injection Hf as <-. simpl in Ht. injection Ht as ->.
        congruence.
      * apply elem_of_disconnect_emits. exists r, users. split; [done|].
        unfold farewell. simpl.
        destruct (list_find _ users) eqn:Hfind; [done|].
        by apply entriesOf_zero in Hfind.
    + unfold disconnect. simpl. by rewrite lookup_fmap, Hr.
  - intros e He. apply elem_of_disconnect_emits in He as (r & users & Hr & Hf).
    unfold farewell in Hf. simpl in Hf.
    destruct (list_find _ users); [|done]. injection Hf as <-.
    unfold recipients, members, disconnect. simpl. rewrite lookup_fmap.
    destruct (rooms st !! r); simpl.
    + apply not_elem_of_difference. right. by apply elem_of_singleton.
    + apply not_elem_of_empty.
Qed.

(** X2. Whatever messages arrive, in whatever order and from whatever
    sockets, no roster of the registry ever lists the same user id twice. *)
Theorem registry_never_lists_a_user_twice (msgs : list (string * Message)) :
  distinctUsers (serve msgs start).1.
Proof. apply distinctUsers_serve. unfold distinctUsers, start. simpl. apply map_Forall_empty. Qed.

(** X3. Of two [user-activity] messages of a socket for the same drawing
    the later one decides: the registry ends up as if only the later one had
    been sent. *)
Theorem userActivity_last_wins (socket d : string) (a b : bool) (st : State) :
  (userActivity socket d b (userActivity socket d a st).1).1
  = (userActivity socket d b st).1.
Proof.
  unfold userActivity at 2 3.
  destruct (roomUsers st !! roomIdOf d) as [users|] eqn:Hr; simpl;
    [|unfold userActivity; by rewrite Hr].
  destruct (list_find _ users) as [[i u]|] eqn:Hfind; simpl;
    [|unfold userActivity; by rewrite Hr, Hfind].
  assert (socketId u = socket) as Hs
    by (by apply list_find_Some in Hfind as (_ & ? & _)).
  unfold userActivity. simpl. rewrite lookup_insert_eq.
  rewrite (list_find_insert_same _ users i u (setActive a u)) by done.
  simpl. by rewrite insert_insert_eq, list_insert_insert_eq.
Qed.

(** X4. Joining twice with the same socket and user leaves the registry and
    the Socket.IO rooms as the first join left them: a repeated [join-room]
    does not duplicate the participant. *)
Theorem joinRoom_twice (socket d : string) (user : JoinUser) (st : State) :
  (joinRoom socket d user (joinRoom socket d user st).1).1
  = (joinRoom socket d user st).1.
Proof.
  unfold joinRoom. simpl. f_equal.
  - rewrite lookup_insert_eq. simpl. rewrite insert_insert_eq. f_equal.
    rewrite filter_app, filter_cons_False, filter_nil, app_nil_r by (simpl; tauto).
    f_equal. rewrite list_filter_filter. apply list_filter_iff. tauto.
  - unfold members. simpl. rewrite lookup_insert_eq. simpl.
    rewrite insert_insert_eq. f_equal.
    by rewrite (assoc_L (∪)), union_idemp_L.
Qed.

End RegistryProperties.

(** ** The request rate limiter *)

Section RateLimitFacts.

Import RateLimit.

Implicit Types (counts : gmap string ClientData) (log : list (string * string * Verdict)).

Lemma passed_cons_other ip path ip' v log :
  ¬ (ip' = ip ∧ isAuthPath path = false ∧ v = Next) →
  passed ip ((path, ip', v) :: log) = passed ip log.
Proof. intros H. unfold passed. by rewrite filter_cons_False. Qed.

Lemma passed_cons_counted ip path log :
  isAuthPath path = false →
  passed ip ((path, ip, Next) :: log) = S (passed ip log).
Proof. intros H. unfold passed. by rewrite filter_cons_True. Qed.

(** A request of another client, or on an auth route, leaves the entry of
    [ip] alone. *)
Lemma rateLimit_other max now path ip' ip counts :
  ip' ≠ ip ∨ isAuthPath path = true →
  (rateLimit max now path ip' counts).2 !! ip = counts !! ip.
Proof.
  intros H. unfold rateLimit. destruct (isAuthPath path) eqn:Ha; [done|].
  destruct H as [Hne|?]; [|done].
  destruct (counts !! ip') as [d|]; simpl.
  - destruct (resetTime d <? now); simpl; [by rewrite lookup_insert_ne|].
    destruct (max <=? count d); simpl; [done | by rewrite lookup_insert_ne].
  - by rewrite lookup_insert_ne.
Qed.

Lemma sweep_keeps now ip counts d :
  counts !! ip = Some d → now ≤ resetTime d → sweep now counts !! ip = Some d.
Proof.
  intros Hd Hle. unfold sweep. apply map_lookup_filter_Some. split; [done|].
  simpl. lia.
Qed.

Lemma sweep_None now ip counts : counts !! ip = None → sweep now counts !! ip = None.
Proof. intros H. unfold sweep. apply map_lookup_filter_None. by left. Qed.

(** Within one window, the count of the client's entry and the requests
    still to be let through never add up to more than the limit. *)
Lemma serve_within_window max ip (T : Z) events : ∀ counts (c : Z),
  1 ≤ max →
  (∀ now ev, (now, ev) ∈ events → now ≤ T ∧ T ≤ now + RATE_LIMIT_WINDOW) →
  (counts !! ip = None ∧ c = 0)
  ∨ (∃ d, counts !! ip = Some d ∧ count d = c ∧ 1 ≤ c ≤ max ∧ T ≤ resetTime d) →
  Z.of_nat (passed ip (serve max events counts).2) + c ≤ max.
Proof.
  induction events as [|[now ev] events IH]; intros counts c Hmax Hwin Hst.
  - simpl. unfold passed. simpl. destruct Hst as [[_ ->]|(d & _ & _ & ? & _)]; lia.
  - assert (now ≤ T ∧ T ≤ now + RATE_LIMIT_WINDOW) as [HnT HTn] by (eapply Hwin; left).
    assert (∀ now' ev', (now', ev') ∈ events →
              now' ≤ T ∧ T ≤ now' + RATE_LIMIT_WINDOW) as Hwin'
      by (intros; eapply Hwin; by right).
    destruct ev as [path ip'|]; simpl.
    + destruct (decide (ip' = ip ∧ isAuthPath path = false)) as [[-> Ha]|Hother].
      * unfold rateLimit. rewrite Ha.
        destruct Hst as [[Hnone ->]|(d & Hd & Hc & Hrange & Hreset)].
        -- rewrite Hnone.
           specialize (IH (<[ip := mkClientData 1 (now + RATE_LIMIT_WINDOW)]> counts)
                         1 Hmax Hwin').
           destruct (serve max events _) as [counts2 log] eqn:E. simpl in *.
           rewrite passed_cons_counted by done.
           assert (Z.of_nat (passed ip log) + 1 ≤ max); [|lia].
           apply IH. right. eexists. rewrite lookup_insert_eq.
           split; [done|]. simpl. split; [done|]. lia.
        -- rewrite Hd. rewrite (proj2 (Z.ltb_ge _ _)) by lia.
           destruct (max <=? count d) eqn:Hfull.
           ++ specialize (IH counts c Hmax Hwin').
              destruct (serve max events counts) as [counts2 log] eqn:E. simpl in *.
              rewrite passed_cons_other by (intros (_ & _ & ?); done).
              apply IH. right. by exists d.
           ++ apply Z.leb_gt in Hfull.
              specialize (IH (<[ip := mkClientData (count d + 1) (resetTime d)]> counts)
                            (c + 1) Hmax Hwin').
              destruct (serve max events _) as [counts2 log] eqn:E. simpl in *.
              rewrite passed_cons_counted by done.
              assert (Z.of_nat (passed ip log) + (c + 1) ≤ max); [|lia].
              apply IH. right. eexists. rewrite lookup_insert_eq.
              split; [done|]. simpl. split; [lia|]. split; [lia | done].
      * assert (ip' ≠ ip ∨ isAuthPath path = true) as Hor.
        { destruct (decide (ip' = ip)) as [->|]; [|by left].
          right. destruct (isAuthPath path); [done|]. by destruct Hother. }
        pose proof (rateLimit_other max now path ip' ip counts Hor) as Hsame.
        destruct (rateLimit max now path ip' counts) as [v counts1]. simpl in Hsame.
        specialize (IH counts1 c Hmax Hwin').
        destruct (serve max events counts1) as [counts2 log] eqn:E. simpl in *.
        rewrite passed_cons_other.
        -- apply IH. rewrite Hsame. done.
        -- intros (-> & Ha & _). destruct Hor as [?|Ht]; [done|]. congruence.
    + apply IH; [done..|].
      destruct Hst as [[Hnone ->]|(d & Hd & Hc & Hrange & Hreset)].
      * left. split; [by apply sweep_None | done].
      * right. exists d. split; [apply sweep_keeps; [done | lia] | done].
Qed.

Lemma serve_cons_verdicts max now path ip rest counts :
  (serve max ((now, Request path ip) :: rest) counts).2.*2
  = (rateLimit max now path ip counts).1
    :: (serve max rest (rateLimit max now path ip counts).2).2.*2.
Proof.
  simpl. destruct (rateLimit max now path ip counts) as [v counts1].
  simpl. destruct (serve max rest counts1) as [counts2 log]. reflexivity.
Qed.

(** One client alone, within one window: its requests pass until the count
    reaches the limit and are refused from then on. *)
Lemma serve_single_client max ip (T : Z) (requests : list (Z * string)) :
  ∀ counts (c : Z),
  1 ≤ max →
  (∀ now path, (now, path) ∈ requests →
     isAuthPath path = false ∧ now ≤ T ∧ T ≤ now + RATE_LIMIT_WINDOW) →
  (counts !! ip = None ∧ c = 0)
  ∨ (∃ d, counts !! ip = Some d ∧ count d = c ∧ 1 ≤ c ≤ max ∧ T ≤ resetTime d) →
  (serve max ((λ r, (r.1, Request r.2 ip)) <$> requests) counts).2.*2
  = replicate (min (length requests) (Z.to_nat (max - c))) Next
    ++ replicate (length requests - Z.to_nat (max - c)) TooManyRequests.
Proof.
  induction requests as [|[now path] requests IH]; intros counts c Hmax Hwin Hst;
    [done|].
  destruct (Hwin now path ltac:(left)) as (Ha & HnT & HTn).
  assert (∀ now' path', (now', path') ∈ requests →
            isAuthPath path' = false ∧ now' ≤ T ∧ T ≤ now' + RATE_LIMIT_WINDOW)
    as Hwin' by (intros; eapply Hwin; by right).
  rewrite fmap_cons. cbn [fst snd]. rewrite serve_cons_verdicts.
  destruct Hst as [[Hnone ->]|(d & Hd & Hc & Hrange & Hreset)].
  - assert (rateLimit max now path ip counts
            = (Next, <[ip := mkClientData 1 (now + RATE_LIMIT_WINDOW)]> counts))
      as -> by (unfold rateLimit; by rewrite Ha, Hnone).
    cbn [fst snd]. rewrite (IH _ 1 Hmax Hwin').
    + replace (min (length ((now, path) :: requests)) (Z.to_nat (max - 0)))
        with (S (min (length requests) (Z.to_nat (max - 1))))
        by (cbn [length]; lia).
      replace (length ((now, path) :: requests) - Z.to_nat (max - 0))%nat
        with (length requests - Z.to_nat (max - 1))%nat
        by (cbn [length]; lia).
      done.
    + right. eexists. rewrite lookup_insert_eq. split; [done|]. cbn.
      split; [done|]. lia.
  - destruct (max <=? count d) eqn:Hfull.
    + assert (rateLimit max now path ip counts = (TooManyRequests, counts)) as ->.
      { unfold rateLimit. rewrite Ha, Hd, (proj2 (Z.ltb_ge _ _)) by lia.
        by rewrite Hfull. }
      apply Z.leb_le in Hfull.
      cbn [fst snd]. rewrite (IH counts c Hmax Hwin') by (right; by exists d).
      replace (Z.to_nat (max - c)) with 0%nat by lia.
      rewrite !Nat.min_0_r, !Nat.sub_0_r. done.
    + assert (rateLimit max now path ip counts
              = (Next, <[ip := mkClientData (count d + 1) (resetTime d)]> counts))
        as ->.
      { unfold rateLimit. rewrite Ha, Hd, (proj2 (Z.ltb_ge _ _)) by lia.
        by rewrite Hfull. }
      apply Z.leb_gt in Hfull.
      cbn [fst snd]. rewrite (IH _ (c + 1) Hmax Hwin').
      * replace (min (length ((now, path) :: requests)) (Z.to_nat (max - c)))
          with (S (min (length requests) (Z.to_nat (max - (c + 1)))))
          by (cbn [length]; lia).
        replace (length ((now, path) :: requests) - Z.to_nat (max - c))%nat
          with (length requests - Z.to_nat (max - (c + 1)))%nat
          by (cbn [length]; lia).
        done.
      * right. eexists. rewrite lookup_insert_eq. split; [done|]. cbn.
        split; [lia|]. split; [lia | done].
Qed.

End RateLimitFacts.

Section RateLimitProperties.

Import RateLimit.

(** X5. However the requests of the clients, the requests on the auth
    routes and the sweeps interleave: from a table without an entry for
    [ip], when all events fall within one window's length
    ([RATE_LIMIT_WINDOW] ms from [t0]), at most [maxRequests] requests of
    [ip] outside the auth routes are let through. *)
Theorem rateLimit_bounds_a_window
    (maxRequests t0 : Z) (ip : string) (events : list (Z * Event))
    (requestCounts : gmap string ClientData) :
  1 ≤ maxRequests →
  requestCounts !! ip = None →
  (∀ now ev, (now, ev) ∈ events → t0 ≤ now ≤ t0 + RATE_LIMIT_WINDOW) →
  Z.of_nat (passed ip (serve maxRequests events requestCounts).2) ≤ maxRequests.
Proof.
  intros Hmax Hnone Hwin.
  pose proof (serve_within_window maxRequests ip (t0 + RATE_LIMIT_WINDOW)
                events requestCounts 0 Hmax) as H.
  rewrite Z.add_0_r in H. apply H; [|by left].
  intros now ev Hin. specialize (Hwin now ev Hin). lia.
Qed.

(** X6. A client alone in a window is served exactly up to the limit: from
    a table without an entry for [ip], of its requests outside the auth
    routes that fall within one window's length the first [maxRequests] are
    let through and all the later ones are refused. *)
Theorem rateLimit_serves_up_to_the_limit
    (maxRequests t0 : Z) (ip : string) (requests : list (Z * string))
    (requestCounts : gmap string ClientData) :
  1 ≤ maxRequests →
  requestCounts !! ip = None →
  (∀ now path, (now, path) ∈ requests →
     isAuthPath path = false ∧ t0 ≤ now ≤ t0 + RATE_LIMIT_WINDOW) →
  (serve maxRequests ((λ r, (r.1, Request r.2 ip)) <$> requests) requestCounts).2.*2
  = replicate (min (length requests) (Z.to_nat maxRequests)) Next
    ++ replicate (length requests - Z.to_nat maxRequests) TooManyRequests.
Proof.
  intros Hmax Hnone Hwin.
  rewrite (serve_single_client maxRequests ip (t0 + RATE_LIMIT_WINDOW)
             requests requestCounts 0 Hmax).
  - by rewrite Z.sub_0_r.
  - intros now path Hin. destruct (Hwin now path Hin) as [Ha ?].
    split; [done | lia].
  - by left.
Qed.

End RateLimitProperties.

(** ** The drawings list cache *)

Section DrawingsCacheFacts.

Import DrawingsCache.

Implicit Types (c : gmap string Entry) (puts : gmap string (Z * string)).

Lemma agrees_later ttl from now c puts :
  from ≤ now → agrees ttl from c puts → agrees ttl now c puts.
Proof.
  intros Hle H key. specialize (H key). destruct (c !! key); [done|].
  destruct H as [?|(t & payload & ? & ?)]; [by left|].
  right. exists t, payload. split; [done | lia].
Qed.

Lemma agrees_get ttl now key c puts :
  agrees ttl now c puts →
  (getCachedDrawingsBody now key c).1 = referenceGet ttl now key puts
  ∧ agrees ttl now (getCachedDrawingsBody now key c).2 puts.
Proof.
  intros H. unfold getCachedDrawingsBody, referenceGet.
  pose proof (H key) as Hk. destruct (c !! key) as [e|] eqn:Hc.
  - rewrite Hk. replace (expiresAt e - ttl + ttl) with (expiresAt e) by lia.
    destruct (expiresAt e <? now) eqn:Hexp; simpl; [|done].
    split; [done|]. intros key'. destruct (decide (key' = key)) as [->|Hne].
    + rewrite lookup_delete_eq. right. eexists _, _. split; [done|]. lia.
    + rewrite lookup_delete_ne by done. apply H.
  - simpl. split; [|done].
    destruct Hk as [->|(t & payload & -> & Hold)]; [done|].
    by rewrite (proj2 (Z.ltb_lt _ _)).
Qed.

Lemma agrees_put ttl now key payload c puts :
  agrees ttl now c puts →
  agrees ttl now (cacheDrawingsResponse ttl now key payload c)
         (<[key := (now, payload)]> puts).
Proof.
  intros H key'. unfold cacheDrawingsResponse.
  destruct (decide (key' = key)) as [->|Hne].
  - rewrite !lookup_insert_eq. simpl. f_equal. f_equal. lia.
  - rewrite !lookup_insert_ne by done. apply H.
Qed.

Lemma agrees_sweep ttl now c puts :
  agrees ttl now c puts → agrees ttl now (sweep now c) puts.
Proof.
  intros H key. specialize (H key). unfold sweep.
  destruct (c !! key) as [e|] eqn:Hc.
  - destruct (decide (expiresAt e < now)) as [Hold|Hfresh].
    + rewrite (proj2 (map_lookup_filter_None _ _ _)).
      * right. eexists _, _. split; [done|]. lia.
      * right. intros e' He'. simpl. rewrite Hc in He'. injection He' as <-. tauto.
    + rewrite (proj2 (map_lookup_filter_Some _ _ _ e)); [done|].
      split; [done|]. simpl. done.
  - rewrite (proj2 (map_lookup_filter_None _ _ _)); [done | by left].
Qed.

Lemma run_reference ttl ops : ∀ from c puts,
  clockFrom from ops → agrees ttl from c puts →
  (run ttl ops c).2 = reference ttl ops puts.
Proof.
  induction ops as [|[now op] ops IH]; intros from c puts Hclock Hag; [done|].
  simpl in Hclock. destruct Hclock as [Hle Hclock].
  pose proof (agrees_later ttl from now c puts Hle Hag) as Hnow.
  destruct op as [key|key payload| |]; simpl.
  - destruct (agrees_get ttl now key c puts Hnow) as [Hans Hag'].
    destruct (getCachedDrawingsBody now key c) as [r c1]. simpl in *.
    specialize (IH now c1 puts Hclock Hag').
    destruct (run ttl ops c1) as [c2 rs]. simpl in *. by rewrite Hans, IH.
  - apply (IH now); [done|]. by apply agrees_put.
  - apply (IH now); [done|]. intros key. unfold invalidateDrawingsCache.
    rewrite !lookup_empty. by left.
  - apply (IH now); [done|]. by apply agrees_sweep.
Qed.

End DrawingsCacheFacts.

Section DrawingsCacheProperties.

Import DrawingsCache.

(** X7. With a clock that does not go back, deleting expired entries (on a
    read and by the periodic sweep) never changes an answer: from the empty
    cache, every [getCachedDrawingsBody] returns what a cache that keeps all
    entries and checks their age would return, namely the payload of the
    latest [cacheDrawingsResponse] for the key since the last
    [invalidateDrawingsCache] when it is at most [ttl] ms old, and [null]
    otherwise. *)
Theorem drawingsCache_answers_like_reference
    (ttl t0 : Z) (ops : list (Z * Op)) :
  clockFrom t0 ops → (run ttl ops ∅).2 = reference ttl ops ∅.
Proof.
  intros Hclock. apply (run_reference ttl ops t0); [done|].
  intros key. rewrite !lookup_empty. by left.
Qed.

End DrawingsCacheProperties.

(** ** Access through a share link *)

Section SharedAccessFacts.

Import SharedRoute SharedAccess.


Lemma putShared_200 now tok b db :
  status (putShared now tok b db).1 = 200 ↔
  ∃ link row, opens now tok db link row ∧ link_permission link = "edit".
Proof.
  unfold putShared, opens, expired. split.
  - destruct (shareLinks db !! tok) as [link|]; [|done].
    destruct (link_isActive link) eqn:Ha; [|done]. simpl.
    destruct (match link_expiresAt link with Some t => t <? now | None => false end)
      eqn:He; [done|].
    case_decide as Hp; [done|].
    destruct (drawings db !! link_drawingId link) as [row|] eqn:Hd; [|done].
    intros _. exists link, row. split; [done|].
    by destruct (decide (link_permission link = "edit")).
  - intros (link & row & (-> & -> & He & ->) & Hp). simpl. rewrite He.
    rewrite decide_False by (intros ?; done). done.
Qed.

Lemma putShared_opened now tok b db link row :
  opens now tok db link row → link_permission link = "edit" →
  putShared now tok b db
  = (mkResponse 200
       (DrawingBody (link_drawingId link) (applyUpdate b row) (link_permission link)),
     mkDb (shareLinks db)
          (<[link_drawingId link := applyUpdate b row]> (drawings db))).
Proof.
  intros (Hl & Ha & He & Hd) Hp. unfold putShared, expired in *.
  rewrite Hl, Ha. simpl. rewrite He, decide_False by (intros ?; done).
  by rewrite Hd.
Qed.

End SharedAccessFacts.

Section SharedAccessProperties.

Import SharedRoute SharedAccess.


(** X9. A [PUT /shared/:token] that answers 200 raises the drawing's version
    by exactly one, replaces the fields the request carries and keeps the
    others, leaves every other drawing and every share link as they were,
    and a [GET /shared/:token] right after it answers with the same body. *)
Theorem putShared_success (now : Z) (tok : string) (b : UpdateBody) (db : Db) :
  status (putShared now tok b db).1 = 200 →
  ∃ link row,
    shareLinks db !! tok = Some link
    ∧ drawings db !! link_drawingId link = Some row
    ∧ drawings (putShared now tok b db).2 !! link_drawingId link
      = Some (applyUpdate b row)
    ∧ row_version (applyUpdate b row) = row_version row + 1
    ∧ row_elements (applyUpdate b row) = default (row_elements row) (req_elements b)
    ∧ row_appState (applyUpdate b row) = default (row_appState row) (req_appState b)
    ∧ row_files (applyUpdate b row) = default (row_files row) (req_files b)
    ∧ row_name (applyUpdate b row) = row_name row
    ∧ (∀ d, d ≠ link_drawingId link →
         drawings (putShared now tok b db).2 !! d = drawings db !! d)
    ∧ shareLinks (putShared now tok b db).2 = shareLinks db
    ∧ getShared now tok (putShared now tok b db).2 = (putShared now tok b db).1.
Proof.
  intros H. apply putShared_200 in H as (link & row & Hopen & Hp).
  exists link, row. rewrite (putShared_opened now tok b db link row Hopen Hp).
  destruct Hopen as (Hl & Ha & He & Hd). simpl.
  split; [done|]. split; [done|]. split; [apply lookup_insert_eq|].
  do 5 (split; [done|]).
  split; [intros d Hne; by apply lookup_insert_ne|]. split; [done|].
  unfold getShared. simpl. rewrite Hl, Ha. simpl. rewrite He.
  by rewrite lookup_insert_eq.
Qed.

End SharedAccessProperties.

(** ** Broadcast of local changes *)

Section BroadcastFacts.

Import Tracker SharedView SharedViewEvents.

Implicit Types (m : gmap string ElementVersionInfo) (el : Element)
  (elements : list Element) (st : Client).

Lemma hasElementChanged_stale el m :
  (hasElementChanged el m).1 = true ↔ stale m el.
Proof.
  unfold hasElementChanged, stale.
  destruct (m !! el_id el) as [previous|]; simpl; [|done].
  rewrite orb_true_iff, !negb_true_iff, !Z.eqb_neq. unfold info_of.
  destruct previous as [v n]. simpl. split.
  - intros [Hne|Hne] [= ? ?]; contradiction.
  - intros Hne. destruct (decide (v = ver el)) as [->|]; [|by left].
    right. intros ->. by apply Hne.
Qed.

(** Whether it reports a change or not, one round of the loop leaves the
    element's current pair in the tracker. *)
Lemma collect_step_tracker el m :
  (if (hasElementChanged el m).1
   then recordElementVersion el (hasElementChanged el m).2
   else (hasElementChanged el m).2)
  = recordElementVersion el m.
Proof.
  destruct ((hasElementChanged el m).1) eqn:Hc.
  - unfold hasElementChanged, recordElementVersion in *.
    destruct (m !! el_id el); simpl; [done|]. by rewrite insert_insert_eq.
  - assert (¬ stale m el) as Hs by (rewrite <- hasElementChanged_stale; congruence).
    unfold stale in Hs. apply dec_stable in Hs.
    unfold hasElementChanged, recordElementVersion in *. rewrite Hs. simpl.
    by rewrite insert_id.
Qed.

Lemma collectChanges_app acc m elements :
  foldl (λ acc el,
           let '(b, m1) := hasElementChanged el acc.2 in
           if b then (acc.1 ++ [el], recordElementVersion el m1) else (acc.1, m1))
        (acc, m) elements
  = (acc ++ (collectChanges elements m).1, (collectChanges elements m).2).
Proof.
  unfold collectChanges. revert acc m.
  induction elements as [|el elements IH]; intros acc m; simpl.
  - by rewrite app_nil_r.
  - destruct (hasElementChanged el m) as [b m1] eqn:E. simpl.
    destruct b; rewrite IH; symmetry; rewrite IH; simpl.
    + by rewrite <- app_assoc.
    + done.
Qed.

Lemma collectChanges_cons el elements m :
  collectChanges (el :: elements) m
  = ((if (hasElementChanged el m).1 then [el] else [])
     ++ (collectChanges elements (recordElementVersion el m)).1,
     (collectChanges elements (recordElementVersion el m)).2).
Proof.
  pose proof (collect_step_tracker el m) as Ht.
  unfold collectChanges at 1. simpl.
  destruct (hasElementChanged el m) as [b m1] eqn:E. simpl in *.
  destruct b; rewrite collectChanges_app, Ht; done.
Qed.

(** The tracker after the loop holds the current pair of every element. *)
Lemma collectChanges_tracker elements m :
  (collectChanges elements m).2
  = foldl (λ m el, recordElementVersion el m) m elements.
Proof.
  revert m. induction elements as [|el elements IH]; intros m; [done|].
  rewrite collectChanges_cons. simpl. apply IH.
Qed.

Lemma filter_ext_elem {A} (P Q : A → Prop) `{!∀ x, Decision (P x)}
    `{!∀ x, Decision (Q x)} (l : list A) :
  (∀ x, x ∈ l → (P x ↔ Q x)) → filter P l = filter Q l.
Proof.
  induction l as [|a l IH]; intros Hext; [done|].
  rewrite !filter_cons. rewrite IH by (intros x Hx; apply Hext; by right).
  destruct (decide (P a)) as [Hp|Hp], (decide (Q a)) as [Hq|Hq]; try done.
  - exfalso. apply Hq. by apply (Hext a ltac:(left)).
  - exfalso. apply Hp. by apply (Hext a ltac:(left)).
Qed.

(** With distinct ids, the reported changes are the elements whose stored
    pair is missing or differs. *)
Lemma collectChanges_changes elements m :
  NoDup (ids elements) → (collectChanges elements m).1 = filter (stale m) elements.
Proof.
  revert m. induction elements as [|el elements IH]; intros m Hnd; [done|].
  simpl in Hnd. apply NoDup_cons in Hnd as [Hel Hnd].
  rewrite collectChanges_cons. simpl. rewrite IH by done.
  rewrite filter_cons.
  assert (filter (stale (recordElementVersion el m)) elements
          = filter (stale m) elements) as ->.
  { apply filter_ext_elem. intros x Hx. unfold stale, recordElementVersion.
    rewrite lookup_insert_ne; [done|].
    intros Heq. apply Hel. rewrite Heq. apply list_elem_of_fmap. by exists x. }
  destruct (decide (stale m el)) as [Hs|Hs].
  - by rewrite (proj2 (hasElementChanged_stale el m)).
  - destruct ((hasElementChanged el m).1) eqn:E; [|done].
    by apply hasElementChanged_stale in E.
Qed.

Lemma lookup_foldl_record_other m elements k :
  k ∉ ids elements →
  foldl (λ m el, recordElementVersion el m) m elements !! k = m !! k.
Proof.
  revert m. induction elements as [|a elements IH]; intros m Hk; [done|].
  simpl in *. apply not_elem_of_cons in Hk as [Hne Hk].
  rewrite IH by done. unfold recordElementVersion. by rewrite lookup_insert_ne.
Qed.

Lemma lookup_foldl_record m elements el :
  NoDup (ids elements) → el ∈ elements →
  foldl (λ m el, recordElementVersion el m) m elements !! el_id el
  = Some (info_of el).
Proof.
  revert m. induction elements as [|a elements IH]; intros m Hnd Hin.
  - by apply elem_of_nil in Hin.
  - simpl in Hnd. apply NoDup_cons in Hnd as [Ha Hnd]. simpl.
    apply elem_of_cons in Hin as [->|Hin]; [|by apply IH].
    rewrite lookup_foldl_record_other by done.
    unfold recordElementVersion. apply lookup_insert_eq.
Qed.

Lemma foldl_record_fixed m elements :
  (∀ el, el ∈ elements → m !! el_id el = Some (info_of el)) →
  foldl (λ m el, recordElementVersion el m) m elements = m.
Proof.
  induction elements as [|a elements IH]; intros Hall; [done|].
  simpl. unfold recordElementVersion at 2.
  rewrite insert_id by (apply Hall; left).
  apply IH. intros el Hel. apply Hall. by right.
Qed.

Lemma collectChanges_sublist elements m :
  sublist (collectChanges elements m).1 elements.
Proof.
  revert m. induction elements as [|el elements IH]; intros m; [done|].
  rewrite collectChanges_cons. simpl.
  destruct ((hasElementChanged el m).1); simpl.
  - by apply sublist_skip.
  - by apply sublist_cons.
Qed.

Lemma set_elementVersionMap_same st :
  set_elementVersionMap (elementVersionMap st) st = st.
Proof. by destruct st. Qed.

(** What [broadcastBody] does once the session has its drawing and socket. *)
Lemma broadcastBody_connected d elements st :
  drawing st = Some d → socketRef st = true →
  broadcastBody elements st
  = (set_elementVersionMap (collectChanges elements (elementVersionMap st)).2 st,
     match (collectChanges elements (elementVersionMap st)).1 with
     | [] => []
     | _ :: _ =>
         [EmitElementUpdate (sd_id d)
            (collectChanges elements (elementVersionMap st)).1 (me_id (me st))]
     end).
Proof.
  intros Hd Hs. unfold broadcastBody. rewrite Hd, Hs.
  destruct (collectChanges elements (elementVersionMap st)) as [changes m] eqn:E.
  simpl. by destruct changes.
Qed.

Lemma broadcastBody_elements elements st e :
  e ∈ (broadcastBody elements st).2 →
  emittedElements e = (collectChanges elements (elementVersionMap st)).1
  ∧ emittedElements e ≠ [].
Proof.
  unfold broadcastBody. destruct (drawing st) as [d|];
    [|intros Hin; by apply elem_of_nil in Hin].
  destruct (socketRef st); [|intros Hin; by apply elem_of_nil in Hin].
  destruct (collectChanges elements (elementVersionMap st)) as [changes m] eqn:E.
  simpl. destruct changes as [|c changes]; [intros Hin; by apply elem_of_nil in Hin|].
  intros Hin. apply list_elem_of_singleton in Hin as ->. done.
Qed.

Lemma filter_stale_current m elements :
  (∀ el, el ∈ elements → m !! el_id el = Some (info_of el)) →
  filter (stale m) elements = [].
Proof.
  induction elements as [|a elements IH]; intros Hcur; [done|].
  rewrite filter_cons_False.
  - apply IH. intros el Hel. apply Hcur. by right.
  - unfold stale. rewrite Hcur by left. tauto.
Qed.

End BroadcastFacts.

Section BroadcastProperties.

Import Tracker SharedView SharedViewEvents.

(** X10. In a session that has its drawing and its socket, for elements with
    distinct ids: [broadcastBody] emits one [element-update] carrying
    exactly the elements whose (version, versionNonce) the tracker does not
    hold, in their order, or nothing when there is none; afterwards the
    tracker holds the current pair of every element passed, and broadcasting
    the same elements again emits nothing and changes nothing. *)
Theorem broadcastBody_reports_each_change_once
    (st : Client) (d : SharedDrawing) (elements : list Element) :
  drawing st = Some d → socketRef st = true → NoDup (ids elements) →
  (broadcastBody elements st).2
  = match filter (stale (elementVersionMap st)) elements with
    | [] => []
    | c :: changes => [EmitElementUpdate (sd_id d) (c :: changes) (me_id (me st))]
    end
  ∧ (∀ el, el ∈ elements →
       elementVersionMap (broadcastBody elements st).1 !! el_id el
       = Some (info_of el))
  ∧ broadcastBody elements (broadcastBody elements st).1
    = ((broadcastBody elements st).1, []).
Proof.
  intros Hd Hs Hnd. rewrite (broadcastBody_connected d elements st Hd Hs).
  rewrite collectChanges_changes, collectChanges_tracker by done. simpl.
  split; [by destruct (filter _ elements)|].
  assert (∀ el, el ∈ elements →
            foldl (λ m el, recordElementVersion el m) (elementVersionMap st) elements
              !! el_id el = Some (info_of el)) as Hcur
    by (intros; by apply lookup_foldl_record).
  split; [done|].
  rewrite (broadcastBody_connected d) by done.
  rewrite collectChanges_changes, collectChanges_tracker by done. simpl.
  by rewrite foldl_record_fixed, filter_stale_current by done.
Qed.

(** X11. [broadcastBody] never emits an [element-update] without elements,
    emits at most one message, and what it emits is a selection of its input
    in the input's order; before the drawing is loaded or while there is no
    socket it emits nothing and leaves the tracker alone. *)
Theorem broadcastBody_sends_only_changes (st : Client) (elements : list Element) :
  (length (broadcastBody elements st).2 ≤ 1)%nat
  ∧ (∀ e, e ∈ (broadcastBody elements st).2 →
       emittedElements e ≠ [] ∧ sublist (emittedElements e) elements)
  ∧ (drawing st = None ∨ socketRef st = false →
       broadcastBody elements st = (st, [])).
Proof.
  split; [|split].
  - unfold broadcastBody. destruct (drawing st); [|simpl; lia].
    destruct (socketRef st); [|simpl; lia].
    destruct (collectChanges _ _) as [changes m]. destruct changes; simpl; lia.
  - intros e He. apply broadcastBody_elements in He as [-> Hne].
    split; [done | apply collectChanges_sublist].
  - unfold broadcastBody. intros [->| ->]; [done|]. by destruct (drawing st).
Qed.

(** X12. The elements recorded when the drawing is loaded are not broadcast:
    for loaded elements with distinct ids, a broadcast of those same
    elements emits nothing, whatever the session was before. *)
Theorem loaded_elements_are_not_broadcast
    (st : Client) (data : SharedDrawing) (elements : list Element) :
  NoDup (ids elements) →
  (broadcastBody elements (onSocketCreated (onLoaded data elements st))).2 = [].
Proof.
  intros Hnd.
  rewrite (broadcastBody_connected data) by done.
  rewrite collectChanges_changes by done. simpl.
  rewrite filter_stale_current; [done|].
  intros el Hel. by apply lookup_foldl_record.
Qed.

End BroadcastProperties.

(** ** The render loop, further *)

Section RenderLoopMoreFacts.

Import OrderedMap Tracker SharedView SharedViewEvents.

Implicit Types (st : Client) (scene : Scene) (sel : gmap string bool)
  (M buffer : list Element) (el : Element).

Lemma dedup_keeps_id el e :
  el_id e = el_id el → el_id (if ver e <? ver el then el else e) = el_id el.
Proof. intros H. by destruct (ver e <? ver el). Qed.


Lemma NoDup_foldl_dedupStep buffer M :
  NoDup (ids M) → NoDup (ids (foldl dedupStep M buffer)).
Proof.
  revert M. induction buffer as [|el buffer IH]; intros M Hnd; [done|].
  simpl. apply IH. apply NoDup_ids_upsert; [|done]. intros e. apply dedup_keeps_id.
Qed.




Lemma NoDup_remoteBatch sel buffer : NoDup (ids (remoteBatch sel buffer)).
Proof.
  unfold remoteBatch. apply (sublist_NoDup _ (ids (foldl dedupStep [] buffer))).
  - apply NoDup_foldl_dedupStep. constructor.
  - unfold ids. apply fmap_sublist, sublist_filter.
Qed.


(** The tracker after a tick: the versions of the batch are recorded. *)
Lemma elementVersionMap_renderLoop st scene :
  excalidrawAPI st = Some scene →
  elementVersionMap (renderLoop st)
  = foldl (λ m el, recordElementVersion el m) (elementVersionMap st)
      (remoteBatch (selectedElementIds (sceneAppState scene)) (elementUpdateBuffer st)).
Proof.
  intros Hapi. unfold renderLoop. rewrite Hapi.
  assert (elementVersionMap (drainElements scene st).1
          = foldl (λ m el, recordElementVersion el m) (elementVersionMap st)
              (remoteBatch (selectedElementIds (sceneAppState scene))
                 (elementUpdateBuffer st))) as H1.
  { unfold drainElements. destruct (elementUpdateBuffer st) as [|b buf] eqn:E; [done|].
    simpl. rewrite E. by destruct (remoteBatch _ (b :: buf)). }
  destruct (drainElements scene st) as [st1 elements]. simpl in H1.
  assert (elementVersionMap (drainCursors scene st1).1 = elementVersionMap st1) as H2
    by (unfold drainCursors; by case_decide).
  destruct (drainCursors scene st1) as [st2 collabs]. simpl in *. congruence.
Qed.

Lemma isSyncing_renderLoop st scene :
  excalidrawAPI st = Some scene →
  isSyncing (renderLoop st)
  = match elementUpdateBuffer st with [] => isSyncing st | _ :: _ => true end.
Proof.
  intros Hapi. unfold renderLoop. rewrite Hapi.
  assert (isSyncing (drainElements scene st).1
          = match elementUpdateBuffer st with [] => isSyncing st | _ :: _ => true end)
    as H1.
  { unfold drainElements. destruct (elementUpdateBuffer st) as [|b buf] eqn:E; [done|].
    simpl. rewrite E. by destruct (remoteBatch _ (b :: buf)). }
  destruct (drainElements scene st) as [st1 elements]. simpl in H1.
  assert (isSyncing (drainCursors scene st1).1 = isSyncing st1) as H2
    by (unfold drainCursors; by case_decide).
  destruct (drainCursors scene st1) as [st2 collabs]. simpl in *. congruence.
Qed.

Lemma drawing_renderLoop st : drawing (renderLoop st) = drawing st.
Proof.
  unfold renderLoop. destruct (excalidrawAPI st) as [scene|]; [|done].
  assert (drawing (drainElements scene st).1 = drawing st) as H1.
  { unfold drainElements. destruct (elementUpdateBuffer st) as [|b buf] eqn:E; [done|].
    simpl. rewrite E. by destruct (remoteBatch _ (b :: buf)). }
  destruct (drainElements scene st) as [st1 elements]. simpl in H1.
  assert (drawing (drainCursors scene st1).1 = drawing st1) as H2
    by (unfold drainCursors; by case_decide).
  destruct (drainCursors scene st1) as [st2 collabs]. simpl in *. congruence.
Qed.

Lemma socketRef_renderLoop st : socketRef (renderLoop st) = socketRef st.
Proof.
  unfold renderLoop. destruct (excalidrawAPI st) as [scene|]; [|done].
  assert (socketRef (drainElements scene st).1 = socketRef st) as H1.
  { unfold drainElements. destruct (elementUpdateBuffer st) as [|b buf] eqn:E; [done|].
    simpl. rewrite E. by destruct (remoteBatch _ (b :: buf)). }
  destruct (drainElements scene st) as [st1 elements]. simpl in H1.
  assert (socketRef (drainCursors scene st1).1 = socketRef st1) as H2
    by (unfold drainCursors; by case_decide).
  destruct (drainCursors scene st1) as [st2 collabs]. simpl in *. congruence.
Qed.

End RenderLoopMoreFacts.

Section RenderLoopProperties.

Import OrderedMap Tracker SharedView SharedViewEvents.


(** X14. What a tick applies it also records, so it is not echoed: once the
    canvas is ready, after a tick the tracker holds the (version,
    versionNonce) of every element of the batch, [hasElementChanged] is
    false for it, and the next broadcast of any elements with distinct ids
    does not carry it; ids outside the batch keep their tracker entry. *)
Theorem renderLoop_records_what_it_applies (st : Client) (scene : Scene) :
  excalidrawAPI st = Some scene →
  (∀ r, r ∈ remoteBatch (selectedElementIds (sceneAppState scene))
               (elementUpdateBuffer st) →
     elementVersionMap (renderLoop st) !! el_id r = Some (info_of r)
     ∧ (hasElementChanged r (elementVersionMap (renderLoop st))).1 = false
     ∧ ∀ elements e, NoDup (ids elements) →
         e ∈ (broadcastBody elements (renderLoop st)).2 →
         r ∉ emittedElements e)
  ∧ (∀ k, k ∉ ids (remoteBatch (selectedElementIds (sceneAppState scene))
                     (elementUpdateBuffer st)) →
       elementVersionMap (renderLoop st) !! k = elementVersionMap st !! k).
Proof.
  intros Hapi. rewrite (elementVersionMap_renderLoop st scene Hapi).
  set (batch := remoteBatch _ _).
  split; [|intros k Hk; by apply lookup_foldl_record_other].
  intros r Hr.
  assert (foldl (λ m el, recordElementVersion el m) (elementVersionMap st) batch
            !! el_id r = Some (info_of r)) as Hcur.
  { apply lookup_foldl_record; [apply NoDup_remoteBatch | done]. }
  split; [done|]. split.
  - destruct ((hasElementChanged r _).1) eqn:E; [|done].
    apply hasElementChanged_stale in E. by destruct E.
  - intros elements e Hnd He Hin.
    apply broadcastBody_elements in He as [Heq _].
    rewrite Heq, collectChanges_changes in Hin by done.
    apply list_elem_of_filter in Hin as [Hstale _].
    apply Hstale. by rewrite (elementVersionMap_renderLoop st scene Hapi).
Qed.

(** X15. A tick that found remote updates in the buffer, even if all of them
    were for selected elements, leaves [isSyncing] set, and until it is reset
    a canvas change is dropped whole: no save, no broadcast, no update of
    [latestElementsRef]. The next animation frame resets the flag when no
    further update has arrived. *)
Theorem remote_tick_mutes_canvas_changes (st : Client) (scene : Scene) :
  excalidrawAPI st = Some scene → elementUpdateBuffer st ≠ [] →
  isSyncing (renderLoop st) = true
  ∧ (∀ elements appState,
       handleCanvasChange elements appState (renderLoop st) = (renderLoop st, []))
  ∧ isSyncing (animationFrame (renderLoop st)) = false.
Proof.
  intros Hapi Hbuf.
  assert (isSyncing (renderLoop st) = true) as Hsync.
  { rewrite (isSyncing_renderLoop st scene Hapi).
    by destruct (elementUpdateBuffer st). }
  split; [done|]. split.
  - intros elements appState. unfold handleCanvasChange.
    destruct (drawing (renderLoop st)); [|done]. by rewrite Hsync.
  - unfold animationFrame.
    destruct (excalidrawAPI_renderLoop st scene Hapi) as [scene' Hapi'].
    rewrite (isSyncing_renderLoop _ scene') by done. simpl.
    by rewrite (elementUpdateBuffer_renderLoop st scene Hapi).
Qed.

(** X16. The cursor part of a tick, once the canvas is ready: every buffered
    cursor replaces the scene's entry of its user, the entries of the other
    users stay, and the cursor buffer is empty afterwards. *)
Theorem renderLoop_drains_cursors (st : Client) (scene : Scene) :
  excalidrawAPI st = Some scene →
  cursorBuffer (renderLoop st) = ∅
  ∧ ∀ userId,
      liveCollaborators (renderLoop st) !! userId
      = match cursorBuffer st !! userId with
        | Some cursor => Some cursor
        | None => collaborators (sceneAppState scene) !! userId
        end.
Proof.
  intros Hapi. unfold renderLoop, liveCollaborators. rewrite Hapi.
  assert (cursorBuffer (drainElements scene st).1 = cursorBuffer st) as H1.
  { unfold drainElements. destruct (elementUpdateBuffer st) as [|b buf] eqn:E; [done|].
    simpl. rewrite E. by destruct (remoteBatch _ (b :: buf)). }
  destruct (drainElements scene st) as [st1 elements]. simpl in H1.
  unfold drainCursors. rewrite H1. case_decide as Hempty; simpl.
  - split; [by rewrite H1|]. intros userId. by rewrite Hempty, lookup_empty.
  - split; [done|]. intros userId. rewrite lookup_union.
    destruct (cursorBuffer st !! userId), (collaborators (sceneAppState scene) !! userId);
      done.
Qed.

(** X17. A tick with nothing to do does nothing: before the canvas is
    ready, or when both buffers are empty, the client is exactly as it
    was. *)
Theorem renderLoop_idle (st : Client) :
  excalidrawAPI st = None ∨ (elementUpdateBuffer st = [] ∧ cursorBuffer st = ∅) →
  renderLoop st = st.
Proof.
  unfold renderLoop. intros [->|[Hb Hc]]; [done|].
  destruct (excalidrawAPI st) as [scene|] eqn:Hapi; [|done].
  rewrite drainElements_idle by done.
  unfold drainCursors. rewrite decide_True by done.
  destruct st as [? ? ? ? api ? ? ? ? ? ? ? ?]. simpl in *. subst api.
  unfold set_excalidrawAPI, updateScene. simpl.
  by destruct scene as [els [? ? ? ? ? ? ?]].
Qed.

End RenderLoopProperties.

(** ** Presence on the client *)

Section PresenceFacts.

Import SharedView SharedViewEvents.

Lemma lookup_foldl_dropInactive (meId : string) (users : list Server.SocketUser)
    (collabs : gmap string Collaborator) (k : string) :
  foldl (dropInactive meId) collabs users !! k
  = if decide (Exists (λ u, Server.id u = k ∧ Server.isActive u = false
                             ∧ Server.id u ≠ meId) users)
    then None
    else collabs !! k.
Proof.
  revert collabs. induction users as [|u users IH]; intros collabs.
  - rewrite decide_False; [done|]. by intros Hex%Exists_nil.
  - cbn [foldl]. rewrite IH. unfold dropInactive.
    destruct (decide (Exists _ users)) as [Hex|Hex].
    + rewrite decide_True; [done|]. by apply Exists_cons_tl.
    + destruct (decide (Server.id u = k ∧ Server.isActive u = false
                       ∧ Server.id u ≠ meId)) as [(Hk & Ha & Hme)|Hnot].
      * rewrite decide_True by (by apply Exists_cons_hd).
        rewrite Ha. simpl. rewrite bool_decide_eq_true_2 by done.
        rewrite Hk. apply lookup_delete_eq.
      * rewrite decide_False by (intros [?|?]%Exists_cons; done).
        destruct (negb (Server.isActive u) && bool_decide (Server.id u ≠ meId)) eqn:E;
          [|done].
        apply andb_true_iff in E as [Ha Hme].
        apply negb_true_iff in Ha. apply bool_decide_eq_true_1 in Hme.
        rewrite lookup_delete_ne; [done|]. intros Hk. apply Hnot. done.
Qed.

End PresenceFacts.

Section PresenceProperties.

Import SharedView SharedViewEvents.

(** X18. The [presence-update] handler: the peers it keeps are the users of
    the roster other than the local one, in the roster's order; the cursor of
    a user is removed from the scene exactly when the roster lists that user
    as inactive and it is not the local user, every other cursor stays; and
    the scene's elements are not touched. *)
Theorem onPresenceUpdate_drops_inactive_cursors
    (users : list Server.SocketUser) (st : Client) :
  (onPresenceUpdate users st).1
  = filter (λ u, Server.id u ≠ me_id (me st)) users
  ∧ liveElements (onPresenceUpdate users st).2 = liveElements st
  ∧ ∀ k,
      liveCollaborators (onPresenceUpdate users st).2 !! k
      = if decide (Exists (λ u, Server.id u = k ∧ Server.isActive u = false
                                 ∧ Server.id u ≠ me_id (me st)) users)
        then None
        else liveCollaborators st !! k.
Proof.
  unfold onPresenceUpdate, liveElements, liveCollaborators. simpl.
  split; [done|].
  destruct (excalidrawAPI st) as [scene|] eqn:Hapi; simpl.
  - split; [done|]. intros k. apply lookup_foldl_dropInactive.
  - rewrite Hapi. split; [done|]. intros k. rewrite lookup_empty. by case_decide.
Qed.

End PresenceProperties.

Section AutosaveProperties.

Import SharedView.


End AutosaveProperties.

(** ** Share links: the owner's routes *)

Section ShareLinksFacts.

Import SharedRoute SharedAccess ShareLinks.

Implicit Types (s : Store) (r : LinkRow).

Lemma NoDup_fmap_inj {A B} (f : A → B) (l : list A) (x y : A) :
  NoDup (f <$> l) → x ∈ l → y ∈ l → f x = f y → x = y.
Proof.
  induction l as [|a l IH]; simpl; intros Hnd Hx Hy Hf.
  - by apply elem_of_nil in Hx.
  - apply NoDup_cons in Hnd as [Ha Hnd].
    apply elem_of_cons in Hx as [->|Hx]; apply elem_of_cons in Hy as [->|Hy].
    + done.
    + exfalso. apply Ha. rewrite Hf. by apply list_elem_of_fmap_2.
    + exfalso. apply Ha. rewrite <- Hf. by apply list_elem_of_fmap_2.
    + by apply IH.
Qed.

Lemma uniqueTokens_inj s i j r r' :
  uniqueTokens s → links s !! i = Some r → links s !! j = Some r' →
  lr_token r = lr_token r' → i = j.
Proof.
  intros Hu Hi Hj Ht.
  apply elem_of_map_to_list in Hi, Hj.
  by pose proof (NoDup_fmap_inj _ _ _ _ Hu Hi Hj Ht) as [= ->].
Qed.

Lemma uniqueTokens_intro s :
  (∀ i j r r', links s !! i = Some r → links s !! j = Some r' →
     lr_token r = lr_token r' → i = j) →
  uniqueTokens s.
Proof.
  intros H. apply NoDup_fmap_2_strong; [|apply NoDup_map_to_list].
  intros [i r] [j r'] Hi Hj Ht. simpl in Ht.
  apply elem_of_map_to_list in Hi, Hj.
  pose proof (H _ _ _ _ Hi Hj Ht) as ->. congruence.
Qed.

Lemma elem_of_tokens s tok :
  tok ∈ tokens s ↔ ∃ i r, links s !! i = Some r ∧ lr_token r = tok.
Proof.
  unfold tokens. rewrite list_elem_of_fmap. split.
  - intros [[i r] [-> Hin]]. apply elem_of_map_to_list in Hin. by exists i, r.
  - intros (i & r & Hi & <-). exists (i, r). split; [done|].
    by apply elem_of_map_to_list.
Qed.

Lemma publicDb_lookup_inv s tok l :
  shareLinks (publicDb s) !! tok = Some l →
  ∃ i r, links s !! i = Some r ∧ lr_token r = tok ∧ lr_link r = l.
Proof.
  intros H. apply elem_of_list_to_map_2 in H.
  apply list_elem_of_fmap in H as [[i r] [[= -> ->] Hin]].
  apply elem_of_map_to_list in Hin. by exists i, r.
Qed.

Lemma publicDb_lookup s i r :
  uniqueTokens s → links s !! i = Some r →
  shareLinks (publicDb s) !! lr_token r = Some (lr_link r).
Proof.
  intros Hu Hi. apply elem_of_list_to_map_1'.
  - intros l Hl. apply list_elem_of_fmap in Hl as [[j r'] [[= Ht ->] Hin]].
    apply elem_of_map_to_list in Hin.
    pose proof (uniqueTokens_inj _ _ _ _ _ Hu Hi Hin Ht) as ->. congruence.
  - apply list_elem_of_fmap. exists (i, r). split; [done|].
    by apply elem_of_map_to_list.
Qed.

Lemma publicDb_lookup_None s tok :
  tok ∉ tokens s → shareLinks (publicDb s) !! tok = None.
Proof.
  intros Hn. destruct (shareLinks (publicDb s) !! tok) as [l|] eqn:E; [|done].
  apply publicDb_lookup_inv in E as (i & r & Hi & Ht & _).
  exfalso. apply Hn. apply elem_of_tokens. by exists i, r.
Qed.

(** The answers of the public routes depend on the link under the token and
    on the drawings only. *)
Lemma getShared_ext now tok (db db' : Db) :
  shareLinks db !! tok = shareLinks db' !! tok → drawings db = drawings db' →
  getShared now tok db = getShared now tok db'.
Proof. unfold getShared. by intros -> ->. Qed.

Lemma putShared_ext now tok b (db db' : Db) :
  shareLinks db !! tok = shareLinks db' !! tok → drawings db = drawings db' →
  (putShared now tok b db).1 = (putShared now tok b db').1.
Proof.
  unfold putShared. intros -> ->.
  destruct (shareLinks db' !! tok) as [l|]; [|done].
  repeat case_match; done.
Qed.

Lemma validPermission_Some f p :
  validPermission f = Some p → p = "view" ∨ p = "edit".
Proof.
  destruct f as [| |v]; simpl; try done.
  destruct (asString v); [|done]. by case_decide; intros [= <-].
Qed.

(** What a request does to the table of links. *)
Inductive Effect s : Store → Prop :=
| Nothing : Effect s s
| Inserted i r :
    links s !! i = None → lr_token r ∉ tokens s →
    ownedBy (lr_createdBy r) (link_drawingId (lr_link r)) s = true →
    viewOrEdit r →
    Effect s {| links := <[i := r]> (links s); owned := owned s |}
| Updated i r r' :
    links s !! i = Some r → lr_token r' = lr_token r →
    lr_createdBy r' = lr_createdBy r →
    link_drawingId (lr_link r') = link_drawingId (lr_link r) →
    (viewOrEdit r → viewOrEdit r') →
    Effect s {| links := <[i := r']> (links s); owned := owned s |}
| Deleted i r :
    links s !! i = Some r →
    Effect s {| links := delete i (links s); owned := owned s |}.

Lemma create_Some newId r s s' :
  create newId r s = Some s' →
  links s !! newId = None ∧ (lr_token r ∉ tokens s)
  ∧ s' = {| links := <[newId := r]> (links s); owned := owned s |}.
Proof.
  unfold create. case_decide as Hd; [done|]. intros [= <-].
  split_and!; [|tauto|done].
  destruct (links s !! newId) eqn:E; [|done]. exfalso. apply Hd. left. by eexists.
Qed.

Lemma handle_effect now u q s :
  Effect s (handle now u q s).2
  ∧ ∀ i r, links s !! i = Some r → lr_createdBy r ≠ u →
      links (handle now u q s).2 !! i = Some r.
Proof.
  destruct q as [newId newToken id permission expiresIn
                |linkId permission isActive expiresIn|linkId]; simpl.
  - unfold createShareLink.
    assert (∀ p e,
      let r := mkLinkRow newToken u (mkShareLink p true e id) in
      ownedBy u id s = true → p = "view" ∨ p = "edit" →
      let out := match create newId r s with
                 | Some s' => (linkJson newId r, s')
                 | None => (Failure 500 "Failed to create share link", s)
                 end in
      Effect s out.2 ∧ ∀ i r0, links s !! i = Some r0 → lr_createdBy r0 ≠ u →
        links out.2 !! i = Some r0) as Hstore.
    { intros p e r Ho Hp. simpl. destruct (create newId r s) as [s'|] eqn:E; simpl.
      - apply create_Some in E as (Hfresh & Htok & ->). split.
        + by apply Inserted.
        + intros i r0 Hi _. simpl. rewrite lookup_insert_ne; [done|]. congruence.
      - split; [constructor | done]. }
    destruct (match permission with Undefined => _ | _ => _ end) as [p|] eqn:Ep;
      [|split; [constructor | done]].
    assert (p = "view" ∨ p = "edit") as Hp.
    { destruct permission; [injection Ep as <-; by left|by eapply validPermission_Some..]. }
    destruct (ownedBy u id s) eqn:Ho; simpl; [|split; [constructor | done]].
    destruct expiresIn as [| |v]; try by apply Hstore.
    destruct (truthy v); [|by apply Hstore].
    destruct (expiryAfter now v); try (split; [constructor | done]).
    by apply Hstore.
  - unfold updateShareLink.
    destruct (links s !! linkId) as [r|] eqn:E; [|split; [constructor | done]].
    case_decide as Hc; [split; [constructor | done]|].
    assert (∀ p a e,
      (viewOrEdit r → p = "view" ∨ p = "edit") →
      let r' := mkLinkRow (lr_token r) (lr_createdBy r)
                  (mkShareLink p a e (link_drawingId (lr_link r))) in
      let s' := {| links := <[linkId := r']> (links s); owned := owned s |} in
      Effect s s' ∧ ∀ i r0, links s !! i = Some r0 → lr_createdBy r0 ≠ u →
        links s' !! i = Some r0) as Hupd.
    { intros p a e Hp r' s'. split.
      - by eapply Updated.
      - intros i r0 Hi Hne. simpl. rewrite lookup_insert_ne; [done|].
        intros <-. congruence. }
    destruct (match permission with Undefined => _ | _ => _ end) as [p|] eqn:Ep;
      [|split; [constructor | done]].
    assert (viewOrEdit r → p = "view" ∨ p = "edit") as Hp.
    { intros Hr. destruct permission;
        [injection Ep as <-; exact Hr|by eapply validPermission_Some..]. }
    destruct expiresIn as [| |v]; try by apply Hupd.
    destruct (expiryAfter now v); try (split; [constructor | done]).
    by apply Hupd.
  - unfold deleteShareLink.
    destruct (links s !! linkId) as [r|] eqn:E; [|split; [constructor | done]].
    case_decide as Hc; [split; [constructor | done]|].
    simpl. split.
    + by eapply Deleted.
    + intros i r0 Hi Hne. rewrite lookup_delete_ne; [done|]. intros <-. congruence.
Qed.

Lemma Effect_owned s s' : Effect s s' → owned s' = owned s.
Proof. by destruct 1. Qed.

Lemma uniqueTokens_insert s i r :
  uniqueTokens s → lr_token r ∉ tokens s →
  uniqueTokens {| links := <[i := r]> (links s); owned := owned s |}.
Proof.
  intros Hu Htok. apply uniqueTokens_intro; simpl; intros a b ra rb Ha Hb Hab.
  apply lookup_insert_Some in Ha as [[<- <-]|[Hna Ha]];
    apply lookup_insert_Some in Hb as [[<- <-]|[Hnb Hb]]; [done|..].
  - exfalso. apply Htok. apply elem_of_tokens. by exists b, rb.
  - exfalso. apply Htok. apply elem_of_tokens. by exists a, ra.
  - by eapply uniqueTokens_inj.
Qed.

Lemma uniqueTokens_update s i r r' :
  uniqueTokens s → links s !! i = Some r → lr_token r' = lr_token r →
  uniqueTokens {| links := <[i := r']> (links s); owned := owned s |}.
Proof.
  intros Hu Hi Ht. apply uniqueTokens_intro; simpl; intros a b ra rb Ha Hb Hab.
  apply lookup_insert_Some in Ha as [[<- <-]|[Hna Ha]];
    apply lookup_insert_Some in Hb as [[<- <-]|[Hnb Hb]]; [done|..].
  - rewrite Ht in Hab. by eapply uniqueTokens_inj.
  - rewrite Ht in Hab. by eapply uniqueTokens_inj.
  - by eapply uniqueTokens_inj.
Qed.

Lemma uniqueTokens_delete s i :
  uniqueTokens s →
  uniqueTokens {| links := delete i (links s); owned := owned s |}.
Proof.
  intros Hu. apply uniqueTokens_intro; simpl; intros a b ra rb Ha Hb Hab.
  apply lookup_delete_Some in Ha as [_ Ha], Hb as [_ Hb].
  by eapply uniqueTokens_inj.
Qed.

Lemma Effect_uniqueTokens s s' : Effect s s' → uniqueTokens s → uniqueTokens s'.
Proof.
  intros He Hu. destruct He as [|i r Hfresh Htok _ _|i r r' Hi Ht _ _ _|i r Hi].
  - done.
  - by apply uniqueTokens_insert.
  - by eapply uniqueTokens_update.
  - by apply uniqueTokens_delete.
Qed.

Lemma serve_snoc trace e s :
  serve (trace ++ [e]) s = (handle e.1.1 e.1.2 e.2 (serve trace s)).2.
Proof. unfold serve. by rewrite foldl_app. Qed.

Lemma serve_foreign trace s i r :
  uniqueTokens s → links s !! i = Some r →
  Forall (λ e, e.1.2 ≠ lr_createdBy r) trace →
  links (serve trace s) !! i = Some r ∧ uniqueTokens (serve trace s)
  ∧ owned (serve trace s) = owned s.
Proof.
  intros Hu Hi. induction trace as [|e trace IH] using rev_ind; intros Hall.
  - done.
  - apply Forall_app in Hall as [Hall He]. apply Forall_inv in He.
    destruct (IH Hall) as (Hi' & Hu' & Ho'). rewrite serve_snoc.
    destruct (handle_effect e.1.1 e.1.2 e.2 (serve trace s)) as [Heff Hkeep].
    split_and!.
    + apply Hkeep; [done | by intros Heq; apply He].
    + by eapply Effect_uniqueTokens.
    + by rewrite (Effect_owned _ _ Heff).
Qed.

Lemma Effect_wellFormed s s' : Effect s s' → wellFormed s → wellFormed s'.
Proof.
  intros He [Hu Hall]. split; [by eapply Effect_uniqueTokens|].
  destruct He as [|i r _ _ Ho Hp|i r r' Hi _ _ Hd Hp|i r Hi]; [done|..]; simpl.
  - apply map_Forall_insert_2; [|done]. split; [|done].
    unfold ownedBy in Ho. by destruct (owned s !! _).
  - destruct (Hall _ _ Hi) as [Hthere Hr].
    apply map_Forall_insert_2; [|done]. split; [by rewrite Hd | by apply Hp].
  - by apply map_Forall_delete.
Qed.

Lemma serve_wellFormed trace s : wellFormed s → wellFormed (serve trace s).
Proof.
  intros Hw. induction trace as [|e trace IH] using rev_ind; [done|].
  rewrite serve_snoc. eapply Effect_wellFormed; [|done]. apply handle_effect.
Qed.

Lemma publicDb_lookup_iff s tok l :
  uniqueTokens s →
  shareLinks (publicDb s) !! tok = Some l
  ↔ ∃ i r, links s !! i = Some r ∧ lr_token r = tok ∧ lr_link r = l.
Proof.
  intros Hu. split; [apply publicDb_lookup_inv|].
  intros (i & r & Hi & <- & <-). by eapply publicDb_lookup.
Qed.



End ShareLinksFacts.

Section ShareLinksProperties.

Import SharedRoute SharedAccess ShareLinks.

(** X22. Only a link's creator can change or remove it: whatever requests to
    the three writing share-link routes other users make, in whatever order
    and with whatever bodies and generated ids and tokens, the link's row is
    as before, and [GET /shared/:token] and [PUT /shared/:token] answer for
    its token as before. *)
Theorem share_link_survives_foreign_requests
    (trace : list (Z * string * Request)) (s : Store) (i : string) (r : LinkRow) :
  uniqueTokens s → links s !! i = Some r →
  Forall (λ e, e.1.2 ≠ lr_createdBy r) trace →
  links (serve trace s) !! i = Some r
  ∧ ∀ t : Z,
      getShared t (lr_token r) (publicDb (serve trace s))
      = getShared t (lr_token r) (publicDb s)
      ∧ ∀ b, (putShared t (lr_token r) b (publicDb (serve trace s))).1
             = (putShared t (lr_token r) b (publicDb s)).1.
Proof.
  intros Hu Hi Hall. destruct (serve_foreign _ _ _ _ Hu Hi Hall) as (Hi' & Hu' & Ho).
  split; [done|]. intros t.
  assert (shareLinks (publicDb (serve trace s)) !! lr_token r
          = shareLinks (publicDb s) !! lr_token r) as Hl.
  { by rewrite (publicDb_lookup _ _ _ Hu' Hi'), (publicDb_lookup _ _ _ Hu Hi). }
  assert (drawings (publicDb (serve trace s)) = drawings (publicDb s)) as Hd.
  { simpl. by rewrite Ho. }
  split; [by apply getShared_ext|]. intros b. by apply putShared_ext.
Qed.

(** X23. Deactivation by the creator closes the link: an update whose
    [isActive] field is there and falsy is either refused (for its
    [permission] or [expiresIn] field) and changes nothing, or answers with
    the link marked inactive, after which [GET /shared/:token] and
    [PUT /shared/:token] answer 403 at any time and the latter writes
    nothing. With only [isActive] in the body (the dialog's toggle) it is
    never refused. *)
Theorem deactivation_closes_link (now : Z) (i : string) (r : LinkRow)
    (permission isActive expiresIn : Field) (s : Store) :
  uniqueTokens s → links s !! i = Some r → falsy isActive = true →
  let out := updateShareLink now (lr_createdBy r) i permission isActive expiresIn s in
  let closed :=
    (∃ p e, out.1 = LinkJson i (lr_token r) p e false)
    ∧ ∀ (t : Z) b,
        getShared t (lr_token r) (publicDb out.2)
        = mkResponse 403 (ErrorBody "This share link has been deactivated")
        ∧ putShared t (lr_token r) b (publicDb out.2)
          = (mkResponse 403 (ErrorBody "This share link has been deactivated"),
             publicDb out.2) in
  ((∃ status error, out = (Failure status error, s)) ∨ closed)
  ∧ (permission = Undefined → expiresIn = Undefined → closed).
Proof.
  intros Hu Hi Hf.
  assert (∀ p e,
    let r' := mkLinkRow (lr_token r) (lr_createdBy r)
                (mkShareLink p false e (link_drawingId (lr_link r))) in
    let s' := {| links := <[i := r']> (links s); owned := owned s |} in
    (∃ p0 e0, linkJson i r' = LinkJson i (lr_token r) p0 e0 false)
    ∧ ∀ (t : Z) b,
        getShared t (lr_token r) (publicDb s')
        = mkResponse 403 (ErrorBody "This share link has been deactivated")
        ∧ putShared t (lr_token r) b (publicDb s')
          = (mkResponse 403 (ErrorBody "This share link has been deactivated"),
             publicDb s')) as Hclosed.
  { intros p e r' s'. split; [by exists p, e|]. intros t b.
    assert (uniqueTokens s') as Hu'.
    { by apply (uniqueTokens_update s i r r'). }
    assert (shareLinks (publicDb s') !! lr_token r = Some (lr_link r')) as Hl.
    { apply (publicDb_lookup s' i r' Hu'). simpl. by rewrite lookup_insert_eq. }
    unfold getShared, putShared. by rewrite Hl. }
  assert ((match isActive with
           | Undefined => link_isActive (lr_link r)
           | Null => false
           | Value v => truthy v
           end) = false) as Ha.
  { destruct isActive as [| |v]; simpl in *; [done..|]. by destruct (truthy v). }
  unfold updateShareLink. rewrite Hi. case_decide as Hc; [done|]. rewrite Ha.
  split.
  - destruct (match permission with Undefined => _ | _ => _ end) as [p|];
      [|left; by eexists _, _].
    destruct expiresIn as [| |v]; [right; apply Hclosed..|].
    destruct (expiryAfter now v); [left; by eexists _, _..|right; apply Hclosed].
  - intros -> ->. apply Hclosed.
Qed.

(** X24. Deletion by the creator removes the link and nothing else: the
    route answers success, [GET /shared/:token] answers 404 for the link's
    token from then on, every other token leads to the link it led to, and no
    drawing is touched. *)
Theorem deleteShareLink_removes_access (i : string) (r : LinkRow) (s : Store) :
  uniqueTokens s → links s !! i = Some r →
  let out := deleteShareLink (lr_createdBy r) i s in
  out.1 = Success
  ∧ links out.2 = delete i (links s)
  ∧ drawings (publicDb out.2) = drawings (publicDb s)
  ∧ (∀ t : Z, getShared t (lr_token r) (publicDb out.2)
              = mkResponse 404 (ErrorBody "Shared link not found"))
  ∧ (∀ tok, tok ≠ lr_token r →
       shareLinks (publicDb out.2) !! tok = shareLinks (publicDb s) !! tok).
Proof.
  intros Hu Hi. unfold deleteShareLink. rewrite Hi. case_decide as Hc; [done|].
  cbn [fst snd]. set (s' := {| links := delete i (links s); owned := owned s |}).
  assert (uniqueTokens s') as Hu'.
  { by apply uniqueTokens_delete. }
  split_and!; [done..| |].
  - intros t. unfold getShared.
    assert (shareLinks (publicDb s') !! lr_token r = None) as ->; [|done].
    apply publicDb_lookup_None.
    rewrite elem_of_tokens. intros (j & r' & Hj & Ht). simpl in Hj.
    apply lookup_delete_Some in Hj as [Hne Hj].
    apply Hne. by apply (uniqueTokens_inj s i j r r' Hu Hi Hj).
  - intros tok Hne. apply option_eq. intros l.
    rewrite !publicDb_lookup_iff by done. cbn [links s'].
    split; intros (j & r' & Hj & Ht & Hl); exists j, r'; (split; [|done]).
    + by apply lookup_delete_Some in Hj as [_ Hj].
    + apply lookup_delete_Some. split; [|done]. intros <-. congruence.
Qed.


(** X26. The writing share-link routes keep the table well-formed: from a
    store where tokens are unique, every link's drawing is there and every
    permission is "view" or "edit", any requests by any users leave a store
    of that kind, and there the drawing of every link is found, so that
    [GET /shared/:token] answers 200, 403 or 404 and not 500. (The JSON
    columns are carried as text; their parsing is not modelled.) *)
Theorem share_link_routes_keep_table_well_formed
    (trace : list (Z * string * Request)) (s : Store) :
  wellFormed s →
  wellFormed (serve trace s)
  ∧ ∀ (t : Z) tok, status (getShared t tok (publicDb (serve trace s))) ≠ 500.
Proof.
  intros Hw. pose proof (serve_wellFormed trace s Hw) as Hw'.
  split; [done|]. intros t tok. destruct Hw' as [Hu Hall].
  unfold getShared.
  destruct (shareLinks (publicDb (serve trace s)) !! tok) as [l|] eqn:El; [|done].
  apply publicDb_lookup_inv in El as (i & r & Hi & _ & <-).
  destruct (Hall _ _ Hi) as [[row Hrow] _].
  destruct (negb _); [done|]. destruct (expired t _); [done|].
  simpl. by rewrite lookup_fmap, Hrow.
Qed.

End ShareLinksProperties.

(** ** Worked instances *)

Section WorkedInstances.

Import Tracker SharedView SharedViewEvents Examples.

Lemma rateLimit_bounds_a_window_witness :
  (RateLimit.passed "10.0.0.1" (RateLimit.serve 3 mixedTraffic ∅).2 ≤ 3)%nat.
Proof.
  assert (Z.of_nat (RateLimit.passed "10.0.0.1" (RateLimit.serve 3 mixedTraffic ∅).2)
          ≤ 3) as H; [|lia].
  apply (rateLimit_bounds_a_window 3 0 "10.0.0.1" mixedTraffic ∅).
  - lia.
  - reflexivity.
  - intros now ev Hin. unfold mixedTraffic, RateLimit.RATE_LIMIT_WINDOW in *.
    repeat (apply elem_of_cons in Hin as [[= -> ->]|Hin]; [lia|]).
    by apply elem_of_nil in Hin.
Defined.

Lemma rateLimit_serves_up_to_the_limit_witness :
  (RateLimit.serve 3 ((λ r, (r.1, RateLimit.Request r.2 "10.0.0.1")) <$> fiveRequests)
     ∅).2.*2
  = [RateLimit.Next; RateLimit.Next; RateLimit.Next;
     RateLimit.TooManyRequests; RateLimit.TooManyRequests].
Proof.
  apply (rateLimit_serves_up_to_the_limit 3 0 "10.0.0.1" fiveRequests ∅).
  - lia.
  - reflexivity.
  - intros now path Hin. unfold fiveRequests, RateLimit.RATE_LIMIT_WINDOW in *.
    repeat (apply elem_of_cons in Hin as [[= -> ->]|Hin]; [split; [reflexivity | lia]|]).
    by apply elem_of_nil in Hin.
Defined.

Lemma drawingsCache_answers_like_reference_witness :
  (DrawingsCache.run 5000 cacheHistory ∅).2
  = [None; Some "[1]"; Some "[1]"; None; Some "[1,2]"; None].
Proof.
  rewrite (drawingsCache_answers_like_reference 5000 0 cacheHistory).
  - reflexivity.
  - simpl. lia.
Defined.

Lemma putShared_success_witness :
  ∃ row,
    SharedRoute.drawings (SharedRoute.putShared 5000 "tok" someUpdate editableDb).2
      !! "D" = Some row
    ∧ SharedRoute.row_version row = 2.
Proof.
  destruct (putShared_success 5000 "tok" someUpdate editableDb)
    as (link & row & Hl & Hd & Hnew & Hv & _).
  - reflexivity.
  - assert (link = editLink) as -> by (by injection Hl).
    assert (row = storedDrawing) as -> by (by injection Hd).
    eexists. split; [exact Hnew | reflexivity].
Defined.

Lemma broadcastBody_reports_each_change_once_witness :
  (broadcastBody finalElements (connected editDrawing)).2
  = [EmitElementUpdate "D" finalElements "u1"]
  ∧ broadcastBody finalElements (broadcastBody finalElements (connected editDrawing)).1
    = ((broadcastBody finalElements (connected editDrawing)).1, []).
Proof.
  destruct (broadcastBody_reports_each_change_once (connected editDrawing)
              editDrawing finalElements) as (Hout & _ & Hagain).
  - reflexivity.
  - reflexivity.
  - apply (bool_decide_unpack _). by vm_compute.
  - split; [|exact Hagain]. rewrite Hout. reflexivity.
Defined.

Lemma loaded_elements_are_not_broadcast_witness :
  (broadcastBody finalElements
     (onSocketCreated (onLoaded editDrawing finalElements (mount (Some "tok") ada)))).2
  = [].
Proof.
  apply (loaded_elements_are_not_broadcast (mount (Some "tok") ada) editDrawing
           finalElements).
  apply (bool_decide_unpack _). by vm_compute.
Defined.

Lemma renderLoop_records_what_it_applies_witness :
  elementVersionMap (renderLoop receiving) !! "y" = Some (mkInfo 2 5).
Proof.
  destruct (renderLoop_records_what_it_applies receiving
              (mkScene [y1] (mkAppState "#ffffff" 1 None 0 0 ∅ ∅)))
    as [Hbatch _].
  - reflexivity.
  - destruct (Hbatch y2) as [Hcur _]; [|exact Hcur].
    apply (bool_decide_unpack _). by vm_compute.
Defined.

Lemma remote_tick_mutes_canvas_changes_witness :
  isSyncing (renderLoop receiving) = true
  ∧ handleCanvasChange finalElements plainAppState (renderLoop receiving)
    = (renderLoop receiving, []).
Proof.
  destruct (remote_tick_mutes_canvas_changes receiving
              (mkScene [y1] (mkAppState "#ffffff" 1 None 0 0 ∅ ∅)))
    as (Hsync & Hmute & _).
  - reflexivity.
  - discriminate.
  - split; [exact Hsync | apply Hmute].
Defined.

Lemma renderLoop_drains_cursors_witness :
  cursorBuffer (renderLoop receiving) = ∅
  ∧ liveCollaborators (renderLoop receiving) !! "u2" = Some cursorOfU2.
Proof.
  destruct (renderLoop_drains_cursors receiving
              (mkScene [y1] (mkAppState "#ffffff" 1 None 0 0 ∅ ∅)))
    as (Hbuf & Hcur).
  - reflexivity.
  - split; [exact Hbuf|]. rewrite Hcur. reflexivity.
Defined.

Lemma renderLoop_idle_witness :
  renderLoop (mount (Some "tok") ada) = mount (Some "tok") ada
  ∧ renderLoop selectingY = selectingY.
Proof.
  split; apply renderLoop_idle.
  - left. reflexivity.
  - right. split; reflexivity.
Defined.



Lemma share_link_survives_foreign_requests_witness :
  ShareLinks.links (ShareLinks.serve bobsRequests adasStore) !! "L" = Some adasLink.
Proof.
  destruct (share_link_survives_foreign_requests bobsRequests adasStore "L" adasLink)
    as [H _].
  - unfold ShareLinks.uniqueTokens. apply (bool_decide_unpack _). by vm_compute.
  - reflexivity.
  - apply (bool_decide_unpack _). by vm_compute.
  - exact H.
Defined.

Lemma deactivation_closes_link_witness :
  SharedAccess.getShared 100 "tok"
    (ShareLinks.publicDb
       (ShareLinks.updateShareLink 50 "ada" "L" ShareLinks.Undefined ShareLinks.Null
          ShareLinks.Undefined adasStore).2)
  = SharedRoute.mkResponse 403
      (SharedRoute.ErrorBody "This share link has been deactivated").
Proof.
  destruct (deactivation_closes_link 50 "L" adasLink ShareLinks.Undefined
              ShareLinks.Null ShareLinks.Undefined adasStore) as [_ Hclosed].
  - unfold ShareLinks.uniqueTokens. apply (bool_decide_unpack _). by vm_compute.
  - reflexivity.
  - reflexivity.
  - destruct (Hclosed eq_refl eq_refl) as [_ H]. apply (H 100 someUpdate).
Defined.

Lemma deleteShareLink_removes_access_witness :
  SharedAccess.getShared 100 "tok"
    (ShareLinks.publicDb (ShareLinks.deleteShareLink "ada" "L" adasStore).2)
  = SharedRoute.mkResponse 404 (SharedRoute.ErrorBody "Shared link not found").
Proof.
  destruct (deleteShareLink_removes_access "L" adasLink adasStore)
    as (_ & _ & _ & H & _).
  - unfold ShareLinks.uniqueTokens. apply (bool_decide_unpack _). by vm_compute.
  - reflexivity.
  - apply (H 100).
Defined.


Lemma share_link_routes_keep_table_well_formed_witness :
  ShareLinks.wellFormed (ShareLinks.serve bobsRequests adasStore).
Proof.
  apply (share_link_routes_keep_table_well_formed bobsRequests adasStore).
  split.
  - unfold ShareLinks.uniqueTokens. apply (bool_decide_unpack _). by vm_compute.
  - apply map_Forall_singleton. split; [by eexists | by right].
Defined.

End WorkedInstances.
